(** * A QIM video steganography codec: framing, bit codec, embedder, extractor

    Shallow embedding of [main.py].  A Python [bytes]/[bytearray] value is a
    [list byte]; a bitstream (a [str] over the two characters '0' and '1',
    or the list [extracted_bits] of such characters) is a [list bool] with
    '0' as [false] and '1' as [true]; Python integers are [N] or [Z]; a
    float32 DCT coefficient is an exact rational of [Q]. *)

From Stdlib.Strings Require Import String Byte.
From Stdlib Require Import List Bool Arith NArith ZArith Lia.
From Stdlib Require Import QArith Qround Qabs Lqa.
Import ListNotations.

(** ** Constants *)

(** [MARKER = b'VCiph_START'] *)
Definition MARKER : list byte := String.list_byte_of_string "VCiph_START"%string.

(** [DCT_COORDINATE = (2, 1)] : row 2, column 1 of the transformed block. *)
Definition DCT_COORDINATE : nat * nat := (2, 1)%nat.

(** [QUANTIZATION_STEP = 4] *)
Definition QUANTIZATION_STEP : Q := 4.

(** ** Bits and bytes *)

Module Bits.

(** [format(byte, '08b')]: the eight binary digits of a byte, most
    significant first. *)
Definition format_08b (b : byte) : list bool :=
  let n := Byte.to_N b in
  map (N.testbit n) [7; 6; 5; 4; 3; 2; 1; 0]%N.

(** [int(s, 2)] on a string of binary digits. *)
Definition int2 (s : list bool) : N :=
  fold_left (fun acc (c : bool) => 2 * acc + (if c then 1 else 0))%N s 0%N.

(** [bitstream[i:i+8] for i in range(0, len(bitstream), 8)]: consecutive
    slices of eight characters; the last slice is shorter when the length is
    not a multiple of eight. *)
Fixpoint chunks8 (s : list bool) : list (list bool) :=
  match s with
  | [] => []
  | b0 :: b1 :: b2 :: b3 :: b4 :: b5 :: b6 :: b7 :: rest =>
      [b0; b1; b2; b3; b4; b5; b6; b7] :: chunks8 rest
  | _ => [s]
  end.

(** One element of a [bytearray] built from an integer.  Python raises
    [ValueError] outside [range(256)]; a slice of at most eight binary digits
    never gets there (lemma [int2_lt_256] below), so that branch is dead. *)
Definition byte_of_int (n : N) : byte :=
  match Byte.of_N n with
  | Some b => b
  | None => x00
  end.

(** [bytearray(int(s[i:i+8], 2) for i in range(0, len(s), 8))] *)
Definition bytes_of_bits (s : list bool) : list byte :=
  map (fun chunk => byte_of_int (int2 chunk)) (chunks8 s).

(** [''.join(format(byte, '08b') for byte in data)] *)
Definition bits_of_bytes (data : list byte) : list bool :=
  flat_map format_08b data.

(** [int.from_bytes(bs, 'big')] *)
Definition from_bytes_big (bs : list byte) : N :=
  fold_left (fun acc (b : byte) => 256 * acc + Byte.to_N b)%N bs 0%N.

(** [n.to_bytes(4, byteorder='big')]; [None] stands for the [OverflowError]
    Python raises when [n] does not fit in four bytes. *)
Definition to_bytes4_big (n : N) : option (list byte) :=
  if (n <? 2 ^ 32)%N then
    Some (map (fun k => byte_of_int ((n / 2 ^ (8 * k)) mod 256)%N) [3; 2; 1; 0]%N)
  else None.

(** [a != b] on two byte sequences. *)
Definition bytes_neq (a b : list byte) : bool :=
  if list_eq_dec Byte.byte_eq_dec a b then false else true.

End Bits.
Import Bits.

(** ** Framing codec *)

(** [_payload_to_bitstream], on the bytes read from the payload file. *)
Definition _payload_to_bitstream (payload_data : list byte) : option (list bool) :=
  match to_bytes4_big (N.of_nat (length payload_data)) with
  | None => None
  | Some payload_length_bytes =>
      let header := MARKER ++ payload_length_bytes in
      let full_data := header ++ payload_data in
      Some (bits_of_bytes full_data)
  end.

(** The three ways [_bitstream_to_payload] returns [False], named after the
    message it prints. *)
Inductive parse_error : Type :=
| IncompleteHeader   (* "Not enough data extracted to read header." *)
| MarkerMismatch     (* "Marker not found! ..." *)
| TruncatedPayload.  (* "Payload incomplete. ..." *)

Inductive parse_result : Type :=
| Written (payload_data : list byte)   (* file written, returns [True] *)
| Failed (e : parse_error).            (* nothing written, returns [False] *)

(** [_bitstream_to_payload]; [Written p] carries the bytes written to
    [output_path]. *)
Definition _bitstream_to_payload (bitstream : list bool) : parse_result :=
  let byte_array := bytes_of_bits bitstream in
  let marker_len := length MARKER in
  let header_len := (marker_len + 4)%nat in
  if (length byte_array <? header_len)%nat then Failed IncompleteHeader
  else
    let extracted_marker := firstn marker_len byte_array in
    if bytes_neq extracted_marker MARKER then Failed MarkerMismatch
    else
      let length_bytes := firstn (header_len - marker_len) (skipn marker_len byte_array) in
      let payload_length := N.to_nat (from_bytes_big length_bytes) in
      let payload_data := firstn payload_length (skipn header_len byte_array) in
      if negb (length payload_data =? payload_length)%nat then Failed TruncatedPayload
      else Written payload_data.


(** ** Bit codec (quantization index modulation) *)

(** Python's one-argument [round]: the nearest integer, a half going to the
    even neighbour. *)
Definition round_half_even (x : Q) : Z :=
  let f := Qfloor x in
  match (x - inject_Z f ?= 1 # 2)%Q with
  | Lt => f
  | Gt => (f + 1)%Z
  | Eq => if Z.even f then f else (f + 1)%Z
  end.

(** The value stored into [dct_block[DCT_COORDINATE]] by [embed] for a bit
    of the bitstream ([false] is the character '0'). *)
Definition Encode (coeff : Q) (bit_to_embed : bool) : Q :=
  let q := QUANTIZATION_STEP in
  (if negb bit_to_embed then
     inject_Z (round_half_even (coeff / q)) * q
   else
     inject_Z (round_half_even ((coeff - q / 2) / q)) * q + q / 2)%Q.

(** The nearest point of each lattice, as [extract] computes them. *)
Definition nearest_zero (coeff : Q) : Q :=
  let q := QUANTIZATION_STEP in
  (inject_Z (round_half_even (coeff / q)) * q)%Q.

Definition nearest_one (coeff : Q) : Q :=
  let q := QUANTIZATION_STEP in
  (inject_Z (round_half_even ((coeff - q / 2) / q)) * q + q / 2)%Q.

(** The bit [extract] appends for a coefficient:
    ['0' if dist_to_zero <= dist_to_one else '1']. *)
Definition Decode (coeff : Q) : bool :=
  let dist_to_zero := Qabs (coeff - nearest_zero coeff)%Q in
  let dist_to_one := Qabs (coeff - nearest_one coeff)%Q in
  if Qle_bool dist_to_zero dist_to_one then false else true.

(** ** Embedder and extractor *)

(** [header_len_bits = (len(MARKER) + 4) * 8] *)
Definition header_len_bits : nat := (length MARKER + 4) * 8.

(** The iterator over the bitstream, the counter and the flag of [embed]. *)
Record embed_state : Type := {
  bitstream_iterator : list bool;
  bits_embedded : nat;
  embedding_complete : bool
}.

(** The accumulator, the bit count awaited and the flag of [extract]. *)
Record extract_state : Type := {
  extracted_bits : list bool;
  total_bits_to_extract : option N;
  extraction_failed : bool
}.

(** [total_bits_to_extract and len(extracted_bits) >= total_bits_to_extract];
    [None] and [0] are both false in Python. *)
Definition enough_bits (st : extract_state) : bool :=
  match total_bits_to_extract st with
  | None => false
  | Some total =>
      negb (total =? 0)%N && (total <=? N.of_nat (length (extracted_bits st)))%N
  end.

Section Carrier.

(** The frames are seen through their luminance planes.  A plane is the
    list of its bands ([for i in range(0, height, 8)]), a band the list of
    its blocks ([for j in range(0, width, 8)]).  What OpenCV and NumPy do to
    one block is a parameter:
    - [dct_coeff blk] is [cv2.dct(blk.astype(np.float32))[DCT_COORDINATE]];
    - [store_coeff blk v] is the block written back by [embed] after
      [dct_block[DCT_COORDINATE] = v]:
      [np.clip(cv2.idct(dct_block), 0, 255).astype(np.uint8)]. *)
Variable block : Type.
Variable dct_coeff : block -> Q.
Variable store_coeff : block -> Q -> block.

Definition band : Type := list block.
Definition frame : Type := list band.

(** The body of the [try] in [embed] for one block and one bit. *)
Definition embed_block (blk : block) (bit_to_embed : bool) : block :=
  let coeff := dct_coeff blk in
  store_coeff blk (Encode coeff bit_to_embed).

(** [for j in range(0, width, 8)] of [embed]: [next] on the exhausted
    iterator raises [StopIteration], which sets the flag and leaves the
    loop. *)
Fixpoint embed_band (row : band) (st : embed_state) : band * embed_state :=
  match row with
  | [] => ([], st)
  | blk :: row' =>
      match bitstream_iterator st with
      | [] =>
          (blk :: row',
           {| bitstream_iterator := [];
              bits_embedded := bits_embedded st;
              embedding_complete := true |})
      | bit_to_embed :: rest =>
          let modified := embed_block blk bit_to_embed in
          let '(out, st') :=
            embed_band row'
              {| bitstream_iterator := rest;
                 bits_embedded := S (bits_embedded st);
                 embedding_complete := embedding_complete st |} in
          (modified :: out, st')
      end
  end.

(** [for i in range(0, height, 8)] of [embed], with
    [if embedding_complete: break] after each band. *)
Fixpoint embed_bands (rows : frame) (st : embed_state) : frame * embed_state :=
  match rows with
  | [] => ([], st)
  | row :: rows' =>
      let '(row_out, st1) := embed_band row st in
      if embedding_complete st1 then (row_out :: rows', st1)
      else
        let '(rows_out, st2) := embed_bands rows' st1 in
        (row_out :: rows_out, st2)
  end.

(** The [while True] loop of [embed] over the frames the capture yields;
    the result lists the frames handed to the writer. *)
Fixpoint embed_frames (frames : list frame) (st : embed_state)
  : list frame * embed_state :=
  match frames with
  | [] => ([], st)
  | f :: frames' =>
      let '(written, st1) :=
        if negb (embedding_complete st) then embed_bands f st else (f, st) in
      let '(rest, st2) := embed_frames frames' st1 in
      (written :: rest, st2)
  end.

(** What a run of [embed] leaves behind: the frames of the output video,
    the two counters, and whether the warning was printed. *)
Record embed_report : Type := {
  stego_frames : list frame;
  frame_count : nat;
  embedded_count : nat;
  partial_warning : bool
}.

(** [embed] from the bitstream on. *)
Definition embed_bitstream (frames : list frame) (bitstream : list bool)
  : embed_report :=
  let '(out, st) :=
    embed_frames frames
      {| bitstream_iterator := bitstream;
         bits_embedded := 0;
         embedding_complete := false |} in
  {| stego_frames := out;
     frame_count := length frames;
     embedded_count := bits_embedded st;
     partial_warning := negb (embedding_complete st) |}.

(** [embed]; [None] is the [OverflowError] of [_payload_to_bitstream]. *)
Definition embed (frames : list frame) (payload_data : list byte)
  : option embed_report :=
  match _payload_to_bitstream payload_data with
  | None => None
  | Some bitstream => Some (embed_bitstream frames bitstream)
  end.

(** The body of the inner loop of [extract] for one block; the boolean
    tells whether the body ended in [break]. *)
Definition extract_block (blk : block) (st : extract_state)
  : extract_state * bool :=
  let coeff := dct_coeff blk in
  let bits := extracted_bits st ++ [Decode coeff] in
  let appended :=
    {| extracted_bits := bits;
       total_bits_to_extract := total_bits_to_extract st;
       extraction_failed := extraction_failed st |} in
  let header_due :=
    match total_bits_to_extract st with
    | None => (header_len_bits <=? length bits)%nat
    | Some _ => false
    end in
  if header_due then
    let header_bytes := bytes_of_bits bits in
    if bytes_neq (firstn (length MARKER) header_bytes) MARKER then
      ({| extracted_bits := bits;
          total_bits_to_extract := total_bits_to_extract st;
          extraction_failed := true |}, true)
    else
      let payload_len :=
        from_bytes_big (firstn 4 (skipn (length MARKER) header_bytes)) in
      let parsed :=
        {| extracted_bits := bits;
           total_bits_to_extract :=
             Some (N.of_nat header_len_bits + payload_len * 8)%N;
           extraction_failed := extraction_failed st |} in
      (parsed, enough_bits parsed)
  else (appended, enough_bits appended).

(** [for j in range(0, width, 8)] of [extract]. *)
Fixpoint extract_band (row : band) (st : extract_state) : extract_state :=
  match row with
  | [] => st
  | blk :: row' =>
      let '(st', broke) := extract_block blk st in
      if broke then st' else extract_band row' st'
  end.

(** [for i in range(0, height, 8)] of [extract], with the test that leaves
    it after each band. *)
Fixpoint extract_bands (rows : frame) (st : extract_state) : extract_state :=
  match rows with
  | [] => st
  | row :: rows' =>
      let st' := extract_band row st in
      if extraction_failed st' || enough_bits st' then st'
      else extract_bands rows' st'
  end.

(** The [while True] loop of [extract]: it is left only when the capture
    has no frame left. *)
Fixpoint extract_frames (frames : list frame) (st : extract_state)
  : extract_state :=
  match frames with
  | [] => st
  | f :: frames' => extract_frames frames' (extract_bands f st)
  end.

(** [extract]: the state when the loop is left, and what
    [_bitstream_to_payload] did with the accumulator, if it was called. *)
Definition extract (frames : list frame)
  : extract_state * option parse_result :=
  let st :=
    extract_frames frames
      {| extracted_bits := [];
         total_bits_to_extract := None;
         extraction_failed := false |} in
  (st,
   if negb (extraction_failed st)
   then Some (_bitstream_to_payload (extracted_bits st))
   else None).

(** The blocks of a frame sequence in the order both loops visit them. *)
Definition blocks_of_frame (f : frame) : list block := concat f.
Definition blocks_of (frames : list frame) : list block :=
  flat_map blocks_of_frame frames.

(** Carrier capacity: one bit per block. *)
Definition capacity (frames : list frame) : nat := length (blocks_of frames).

(** Every block that receives a bit gives the stored coefficient back with
    an error below [q / 4]. *)
Fixpoint reads_back (blocks : list block) (bitstream : list bool) : bool :=
  match blocks, bitstream with
  | blk :: blocks', bit :: bitstream' =>
      let v := Encode (dct_coeff blk) bit in
      negb (Qle_bool (QUANTIZATION_STEP / 4) (Qabs (dct_coeff (store_coeff blk v) - v)))
      && reads_back blocks' bitstream'
  | _, _ => true
  end.

End Carrier.

Arguments embed_block {block}.
Arguments embed_band {block}.
Arguments embed_bands {block}.
Arguments embed_frames {block}.
Arguments embed_bitstream {block}.
Arguments embed {block}.
Arguments extract_block {block}.
Arguments extract_band {block}.
Arguments extract_bands {block}.
Arguments extract_frames {block}.
Arguments extract {block}.
Arguments blocks_of_frame {block}.
Arguments blocks_of {block}.
Arguments capacity {block}.
Arguments reads_back {block}.
Arguments stego_frames {block}.
Arguments frame_count {block}.
Arguments embedded_count {block}.
Arguments partial_warning {block}.

(** A sequence of blocks cut into [n] frames of [bands] bands of
    [blocks_per_band] blocks each, in scan order. *)
Fixpoint cut_bands {block : Type} (n blocks_per_band : nat) (blocks : list block)
  : frame block :=
  match n with
  | O => []
  | S n' =>
      firstn blocks_per_band blocks
      :: cut_bands n' blocks_per_band (skipn blocks_per_band blocks)
  end.

Fixpoint cut_frames {block : Type} (n bands blocks_per_band : nat)
    (blocks : list block) : list (frame block) :=
  match n with
  | O => []
  | S n' =>
      cut_bands bands blocks_per_band blocks
      :: cut_frames n' bands blocks_per_band (skipn (bands * blocks_per_band) blocks)
  end.

(** [embed] and then [extract] on its output, as [__main__] runs them, the
    video file in between taken to hand the frames over unchanged.  [None]:
    no payload file was written and [_bitstream_to_payload] was not
    reached. *)
Definition embed_then_extract {block : Type} (dct_coeff : block -> Q)
    (store_coeff : block -> Q -> block)
    (frames : list (frame block)) (payload_data : list byte)
  : option parse_result :=
  match embed dct_coeff store_coeff frames payload_data with
  | None => None
  | Some report => snd (extract dct_coeff (stego_frames report))
  end.

(** ** A carrier without loss

    A block is identified with its designated coefficient, and a stored
    coefficient is read back unchanged. *)
Module Lossless.

Definition block : Type := Q.
Definition dct_coeff (blk : block) : Q := blk.
Definition store_coeff (_ : block) (v : Q) : block := v.

(** A coefficient on the lattice of each bit. *)
Definition coeff_of_bit (b : bool) : Q := if b then 2 else 0.

End Lossless.

(** ** The carrier of 8x8 sample blocks

    A block is an 8x8 grid of [uint8] samples.  [cv2.dct] and [cv2.idct]
    belong to OpenCV; they are taken to be the two-dimensional DCT-II of
    size 8 and its inverse, [C X C^T] and [C^-1 Y C^-T], in exact rational
    arithmetic: the entries of [C] are the orthonormal ones written to six
    decimals and [C^-1] is the exact inverse of that matrix, so a block
    whose coefficients are left alone is rebuilt sample for sample.  The
    rounding of [float32] is not part of the model. *)
Module Grid.

Definition block : Type := list (list Z).

Definition dct_matrix : list (list Q) :=
  map (map (fun n => n # 1000000))
    [[353553; 353553; 353553; 353553; 353553; 353553; 353553; 353553];
     [490393; 415735; 277785; 97545; -97545; -277785; -415735; -490393];
     [461940; 191342; -191342; -461940; -461940; -191342; 191342; 461940];
     [415735; -97545; -490393; -277785; 277785; 490393; 97545; -415735];
     [353553; -353553; -353553; 353553; 353553; -353553; -353553; 353553];
     [277785; -490393; 97545; 415735; -415735; -97545; 490393; -277785];
     [191342; -461940; 461940; -191342; -191342; 461940; -461940; 191342];
     [97545; -277785; 415735; -490393; 490393; -415735; 277785; -97545]]%Z.

(** Sum of products, kept in lowest terms. *)
Fixpoint dot (a b : list Q) : Q :=
  match a, b with
  | x :: a', y :: b' => Qred (x * y + dot a' b')
  | _, _ => 0
  end.

(** The columns of a matrix with [n] columns. *)
Fixpoint columns (n : nat) (m : list (list Q)) : list (list Q) :=
  match n with
  | O => []
  | S n' => map (fun row => hd 0 row) m :: columns n' (map (@tl Q) m)
  end.

Definition transpose (m : list (list Q)) : list (list Q) := columns 8 m.

Definition mat_mul (a b : list (list Q)) : list (list Q) :=
  let cols := transpose b in
  map (fun row => map (fun col => dot row col) cols) a.

Definition identity : list (list Q) :=
  map (fun i => map (fun j => if Nat.eqb i j then 1 else 0) (seq 0 8)) (seq 0 8).

(** Gauss-Jordan elimination on the rows of an augmented matrix: the pivot
    row of column [c] is scaled to 1 there and taken off every other row. *)
Definition scale_row (k : Q) (r : list Q) : list Q :=
  map (fun x => Qred (k * x)) r.

Definition sub_row (k : Q) (p r : list Q) : list Q :=
  map (fun xy => Qred (snd xy - k * fst xy)) (combine p r).

Fixpoint pick_pivot (c : nat) (rows : list (list Q))
  : option (list Q * list (list Q)) :=
  match rows with
  | [] => None
  | r :: rest =>
      if Qeq_bool (nth c r 0) 0 then
        match pick_pivot c rest with
        | Some (p, others) => Some (p, r :: others)
        | None => None
        end
      else Some (r, rest)
  end.

Fixpoint eliminate (n c : nat) (done todo : list (list Q)) : list (list Q) :=
  match n with
  | O => done
  | S n' =>
      match pick_pivot c todo with
      | None => done ++ todo
      | Some (p, others) =>
          let p := scale_row (/ nth c p 0) p in
          let clear r := sub_row (nth c r 0) p r in
          eliminate n' (S c) (map clear done ++ [p]) (map clear others)
      end
  end.

Definition inverse (m : list (list Q)) : list (list Q) :=
  map (skipn 8)
    (eliminate 8 0 [] (map (fun ab => fst ab ++ snd ab) (combine m identity))).

(** The matrix of the inverse transform: the exact inverse of [dct_matrix],
    so that [cv2_idct] undoes [cv2_dct] as [cv2.idct] undoes [cv2.dct]. *)
Definition idct_matrix : list (list Q) := Eval vm_compute in inverse dct_matrix.

Definition cv2_dct (x : list (list Q)) : list (list Q) :=
  mat_mul (mat_mul dct_matrix x) (transpose dct_matrix).

Definition cv2_idct (y : list (list Q)) : list (list Q) :=
  mat_mul (mat_mul idct_matrix y) (transpose idct_matrix).

(** [block.astype(np.float32)] *)
Definition astype_float32 (blk : block) : list (list Q) :=
  map (map inject_Z) blk.

(** [m[coordinate]] and [m[coordinate] = v] for a (row, column) pair. *)
Definition get_at (m : list (list Q)) (coordinate : nat * nat) : Q :=
  nth (snd coordinate) (nth (fst coordinate) m []) 0.

Fixpoint set_nth {A : Type} (n : nat) (v : A -> A) (l : list A) : list A :=
  match l, n with
  | [], _ => []
  | x :: l', O => v x :: l'
  | x :: l', S n' => x :: set_nth n' v l'
  end.

Definition set_at (m : list (list Q)) (coordinate : nat * nat) (v : Q)
  : list (list Q) :=
  set_nth (fst coordinate) (set_nth (snd coordinate) (fun _ => v)) m.

(** [np.clip(x, 0, 255).astype(np.uint8)] on one sample: the cast drops the
    fractional part. *)
Definition clip_uint8 (x : Q) : Z :=
  if Qle_bool x 0 then 0%Z
  else if Qle_bool 255 x then 255%Z
  else Qfloor x.

Definition dct_coeff (blk : block) : Q :=
  get_at (cv2_dct (astype_float32 blk)) DCT_COORDINATE.

Definition store_coeff (blk : block) (v : Q) : block :=
  let dct_block := cv2_dct (astype_float32 blk) in
  let dct_block := set_at dct_block DCT_COORDINATE v in
  let idct_block_float32 := cv2_idct dct_block in
  map (map clip_uint8) idct_block_float32.

(** A block with all samples equal, and frames made of such blocks. *)
Definition uniform_block (v : Z) : block := repeat (repeat v 8) 8.

Definition uniform_frame (bands blocks_per_band : nat) (v : Z) : frame block :=
  repeat (repeat (uniform_block v) blocks_per_band) bands.

(** A block that is [a] where the basis function of [DCT_COORDINATE] is
    positive and [0] where it is negative. *)
Definition step_block (a : Z) : block :=
  let hi := [a; a; a; a; 0; 0; 0; 0]%Z in
  let lo := [0; 0; 0; 0; a; a; a; a]%Z in
  [hi; hi; lo; lo; lo; lo; hi; hi].

End Grid.

(** ** Notions used to state the behaviour of the loops *)

(** The effect of [embed] on the sequence of blocks: one bit per block while
    the bitstream lasts, the remaining blocks as they are. *)
Fixpoint embed_flat {block : Type} (dct_coeff : block -> Q)
    (store_coeff : block -> Q -> block)
    (blocks : list block) (bitstream : list bool) : list block :=
  match blocks, bitstream with
  | blk :: blocks', bit :: bitstream' =>
      embed_block dct_coeff store_coeff blk bit
      :: embed_flat dct_coeff store_coeff blocks' bitstream'
  | _, _ => blocks
  end.

(** Two bit sequences agree as far as both go. *)
Inductive agree : list bool -> list bool -> Prop :=
| agree_nil_l (ts : list bool) : agree [] ts
| agree_nil_r (ds : list bool) : agree ds []
| agree_cons (b : bool) (ds ts : list bool) : agree ds ts -> agree (b :: ds) (b :: ts).

(** The bits [extract] reads off a sequence of blocks. *)
Definition decoded {block : Type} (dct_coeff : block -> Q) (blocks : list block)
  : list bool :=
  map (fun blk => Decode (dct_coeff blk)) blocks.

(** The designated coefficients of the blocks of a frame sequence, frame by
    frame and band by band. *)
Definition coefficients {block : Type} (dct_coeff : block -> Q)
    (frames : list (frame block)) : list (frame Lossless.block) :=
  map (map (map dct_coeff)) frames.

(** The states of [extract] on a stream that carries the bitstream [T]:
    [k] bits of [T] read and more to come, or all of [T] read. *)
Definition scanning (T : list bool) (k : nat) (st : extract_state) : Prop :=
  extracted_bits st = firstn k T /\
  (k < length T)%nat /\
  extraction_failed st = false /\
  total_bits_to_extract st =
    if (k <? header_len_bits)%nat then None else Some (N.of_nat (length T)).

Definition finished (T : list bool) (st : extract_state) : Prop :=
  (exists extra, extracted_bits st = T ++ extra) /\
  extraction_failed st = false /\
  total_bits_to_extract st = Some (N.of_nat (length T)).

(** ** What the extractor makes of the bits its blocks decode to *)

(** The marker test and the bit count of [extract] at the moment the
    accumulator holds the first [header_len_bits] bits of [D]. *)
Definition header_marker_ok (D : list bool) : bool :=
  negb (bytes_neq
          (firstn (length MARKER) (bytes_of_bits (firstn header_len_bits D)))
          MARKER).

Definition declared_bits (D : list bool) : N :=
  (N.of_nat header_len_bits
   + from_bytes_big
       (firstn 4 (skipn (length MARKER) (bytes_of_bits (firstn header_len_bits D))))
     * 8)%N.

(** The states of [extract] on blocks that decode to [D]: [k] bits read and
    no [break] taken so far; the required bits read, with at most [n] more;
    the marker rejected, with at most [n] bits more than the header. *)
Definition running (D : list bool) (k : nat) (st : extract_state) : Prop :=
  extracted_bits st = firstn k D /\
  (k <= length D)%nat /\
  extraction_failed st = false /\
  total_bits_to_extract st =
    (if (k <? header_len_bits)%nat then None else Some (declared_bits D)) /\
  ((header_len_bits <= k)%nat ->
   header_marker_ok D = true /\ (N.of_nat k < declared_bits D)%N).

Definition stopped_ok (D : list bool) (n : nat) (st : extract_state) : Prop :=
  (header_len_bits <= length D)%nat /\
  header_marker_ok D = true /\
  (declared_bits D <= N.of_nat (length D))%N /\
  extraction_failed st = false /\
  total_bits_to_extract st = Some (declared_bits D) /\
  exists extra,
    extracted_bits st = firstn (N.to_nat (declared_bits D)) D ++ extra /\
    (length extra <= n)%nat.

Definition stopped_failed (D : list bool) (n : nat) (st : extract_state) : Prop :=
  (header_len_bits <= length D)%nat /\
  header_marker_ok D = false /\
  extraction_failed st = true /\
  total_bits_to_extract st = None /\
  exists extra,
    extracted_bits st = firstn header_len_bits D ++ extra /\
    (length extra <= n)%nat.

(** ** The script *)

(** How [__main__] ends: one of the two early exits, the [OverflowError] of
    [embed], or one of the three verdicts on the recovered file. *)
Inductive verdict : Type :=
| PayloadMissing    (* "Secret payload ... not found." *)
| VideoMissing      (* "Cover video ... not found." *)
| LengthOverflow    (* the payload length does not fit four bytes *)
| Success           (* "The recovered file is a perfect bit-for-bit match!" *)
| Corrupted         (* "The recovered file is corrupted." *)
| NotCreated.       (* "The recovered file ... was not created." *)

Section Script.

Variable block : Type.
Variable dct_coeff : block -> Q.
Variable store_coeff : block -> Q -> block.

(** The frames [cv2.VideoCapture] reads from the file that
    [cv2.VideoWriter] made of the frames written with the 'mp4v' codec. *)
Variable codec : list (frame block) -> list (frame block).

(** [get_file_hash] on the content of a file: the MD5 hex digest. *)
Variable get_file_hash : list byte -> string.

(** [__main__] on the content of the secret file and the frames of the
    cover video, [None] when the file is not there, and on what the path of
    the recovered file holds before the run. *)
Definition main (secret : option (list byte))
    (cover : option (list (frame block)))
    (recovered_before : option (list byte)) : verdict :=
  match secret with
  | None => PayloadMissing
  | Some payload =>
      match cover with
      | None => VideoMissing
      | Some frames =>
          match embed dct_coeff store_coeff frames payload with
          | None => LengthOverflow
          | Some report =>
              let stego := codec (stego_frames report) in
              let recovered :=
                match snd (extract dct_coeff stego) with
                | Some (Written payload_data) => Some payload_data
                | _ => recovered_before
                end in
              match recovered with
              | Some recovered_data =>
                  let original_hash := get_file_hash payload in
                  let recovered_hash := get_file_hash recovered_data in
                  if String.eqb original_hash recovered_hash
                  then Success else Corrupted
              | None => NotCreated
              end
          end
      end
  end.

End Script.

Arguments main {block}.

(** ** Concrete streams and frame sequences *)

Module Examples.

(** The three-byte payload [{0x41, 0x42, 0x43}]. *)
Definition abc : list byte := [x41; x42; x43].

(** The bitstream of a payload that fits the length field. *)
Definition stream_of (payload : list byte) : list bool :=
  match _payload_to_bitstream payload with
  | Some bits => bits
  | None => []
  end.

(** Lossless blocks carrying the given bits. *)
Definition carrying (bits : list bool) : list Lossless.block :=
  map Lossless.coeff_of_bit bits.

(** Five frames of 6 x 8 blocks: the 120 bits of the empty payload end in
    the middle of the third frame; blocks with coefficient 0 follow. *)
Definition empty_payload_then_more : list (frame Lossless.block) :=
  cut_frames 5 6 8 (carrying (stream_of []) ++ repeat 0%Q 120).

(** Five frames of 6 x 8 blocks whose coefficients are all 0. *)
Definition no_marker : list (frame Lossless.block) :=
  cut_frames 5 6 8 (repeat 0%Q 240).

(** One frame of 11 x 13 blocks with the first 143 of the 144 bits of
    [abc]. *)
Definition abc_cut_short : list (frame Lossless.block) :=
  cut_frames 1 11 13 (firstn 143 (carrying (stream_of abc))).

(** One frame of 1 x 113 blocks with the first 113 of the 120 bits of the
    empty payload: the header is seven bits short. *)
Definition header_cut_short : list (frame Lossless.block) :=
  cut_frames 1 1 113 (firstn 113 (carrying (stream_of []))).

(** Three frames of 6 x 8 blocks, coefficient 7/3 everywhere: 144 blocks. *)
Definition lossless_cover : list (frame Lossless.block) :=
  cut_frames 3 6 8 (repeat (7 # 3)%Q 144).

(** Four frames of 6 x 8 blocks for a bitstream of 130 bits: it runs out
    after the second block of the fifth band of the third frame. *)
Definition bits_130 : list bool := repeat true 130.
Definition lossless_before : list (frame Lossless.block) :=
  cut_frames 2 6 8 (repeat (7 # 3)%Q 96).
Definition lossless_frame : frame Lossless.block :=
  cut_bands 6 8 (repeat (7 # 3)%Q 48).
Definition lossless_after : list (frame Lossless.block) :=
  cut_frames 1 6 8 (repeat (7 # 3)%Q 48).

(** Three black frames of 48 x 64 samples: 144 blocks of zeros. *)
Definition black_frames : list (frame Grid.block) :=
  repeat (Grid.uniform_frame 6 8 0) 3.

(** A block whose samples rise from left to right. *)
Definition ramp_block : Grid.block := repeat [0; 10; 20; 30; 40; 50; 60; 70]%Z 8.

(** A uniform grey block after [embed] has put a 1 into it. *)
Definition grey_block_with_one : Grid.block :=
  let hi := [128; 128; 128; 128; 127; 127; 127; 127]%Z in
  let lo := [127; 127; 127; 127; 128; 128; 128; 128]%Z in
  [hi; hi; lo; lo; lo; lo; hi; hi].

End Examples.

(** ** Further concrete frame sequences *)

Module MoreExamples.
Import Examples.

(** One frame of 2 x 50 blocks whose coefficients are all 0. *)
Definition hundred_blocks : list (frame Lossless.block) :=
  cut_frames 1 2 50 (repeat 0%Q 100).

(** One frame of 10 x 13 blocks with the first 130 of the 144 bits of
    [abc]. *)
Definition abc_cut_at_130 : list (frame Lossless.block) :=
  cut_frames 1 10 13 (firstn 130 (carrying (stream_of abc))).

(** Three frames of 6 x 8 blocks with the 144 bits of [abc]. *)
Definition abc_exact : list (frame Lossless.block) :=
  cut_frames 3 6 8 (carrying (stream_of abc)).

(** Five frames of 6 x 8 blocks: the 144 bits of [abc], then blocks with
    coefficient 2. *)
Definition abc_then_more : list (frame Lossless.block) :=
  cut_frames 5 6 8 (carrying (stream_of abc) ++ repeat 2%Q 96).

(** A transport that loses every coefficient. *)
Definition flattening_codec (frames : list (frame Lossless.block))
  : list (frame Lossless.block) :=
  map (map (map (fun _ : Lossless.block => 0%Q))) frames.

(** A stand-in for [get_file_hash] that tells all files apart. *)
Definition content_hash (data : list byte) : string := string_of_list_byte data.

End MoreExamples.

(** ** Slices of concatenations *)

Module SliceFacts.

Lemma firstn_app_left (A : Type) (a b : list A) (n : nat) :
  n = length a -> firstn n (a ++ b) = a.
Proof.
  intros ->. rewrite firstn_app, Nat.sub_diag, firstn_all. cbn. apply app_nil_r.
Qed.

Lemma skipn_app_left (A : Type) (a b : list A) (n : nat) :
  n = length a -> skipn n (a ++ b) = b.
Proof.
  intros ->. rewrite skipn_app, Nat.sub_diag, skipn_all. reflexivity.
Qed.

Lemma firstn_app_short (A : Type) (a b : list A) (n : nat) :
  (n <= length a)%nat -> firstn n (a ++ b) = firstn n a.
Proof.
  intros H. rewrite firstn_app.
  replace (n - length a)%nat with 0%nat by lia. cbn. apply app_nil_r.
Qed.

End SliceFacts.
(** ** Facts about bits and bytes *)

Module BitsFacts.

Example format_08b_V :
  format_08b "V" = [false; true; false; true; false; true; true; false].
Proof. reflexivity. Qed.

Example int2_0100001 : int2 [false; true; false; false; false; false; true] = 33%N.
Proof. reflexivity. Qed.

(** A trailing slice of fewer than eight bits still makes a byte. *)
Example bytes_of_bits_11_bits :
  bytes_of_bits [false; true; false; false; false; false; false; true; true; true; true]
  = [x41; x07].
Proof. reflexivity. Qed.

Example to_bytes4_big_258 : to_bytes4_big 258 = Some [x00; x00; x01; x02].
Proof. reflexivity. Qed.

Lemma format_08b_length (b : byte) : length (format_08b b) = 8%nat.
Proof. reflexivity. Qed.

Lemma byte_of_format (b : byte) : byte_of_int (int2 (format_08b b)) = b.
Proof. destruct b; reflexivity. Qed.

Lemma format_of_byte (b0 b1 b2 b3 b4 b5 b6 b7 : bool) :
  format_08b (byte_of_int (int2 [b0; b1; b2; b3; b4; b5; b6; b7]))
  = [b0; b1; b2; b3; b4; b5; b6; b7].
Proof.
  destruct b0, b1, b2, b3, b4, b5, b6, b7; reflexivity.
Qed.

(** A list of length [8 + n] splits into its first eight elements and a
    rest of length [n]. *)
Lemma split8 (A : Type) (s : list A) (n : nat) :
  length s = (8 + n)%nat ->
  exists a0 a1 a2 a3 a4 a5 a6 a7 rest,
    s = a0 :: a1 :: a2 :: a3 :: a4 :: a5 :: a6 :: a7 :: rest /\ length rest = n.
Proof.
  intros H.
  do 8 (destruct s as [|? s]; [discriminate H|]).
  simpl in H. do 9 eexists. split; [reflexivity|lia].
Qed.

Lemma bits_of_bytes_length (bs : list byte) :
  length (bits_of_bytes bs) = (8 * length bs)%nat.
Proof.
  induction bs as [|b bs IH]; [reflexivity|].
  cbn [bits_of_bytes flat_map]. rewrite length_app, format_08b_length.
  fold (bits_of_bytes bs). rewrite IH. simpl. lia.
Qed.

Lemma bits_of_bytes_app (a b : list byte) :
  bits_of_bytes (a ++ b) = bits_of_bytes a ++ bits_of_bytes b.
Proof. apply flat_map_app. Qed.

Lemma bytes_of_bits_cons8 (b0 b1 b2 b3 b4 b5 b6 b7 : bool) (rest : list bool) :
  bytes_of_bits (b0 :: b1 :: b2 :: b3 :: b4 :: b5 :: b6 :: b7 :: rest)
  = byte_of_int (int2 [b0; b1; b2; b3; b4; b5; b6; b7]) :: bytes_of_bits rest.
Proof. reflexivity. Qed.

(** Whole bytes at the front of a bitstream are rebuilt independently of
    what follows them. *)
Lemma bytes_of_bits_app (k : nat) : forall s t : list bool,
  length s = (8 * k)%nat ->
  bytes_of_bits (s ++ t) = bytes_of_bits s ++ bytes_of_bits t.
Proof.
  induction k as [|k IH]; intros s t Hlen.
  - destruct s; [reflexivity|discriminate Hlen].
  - destruct (split8 _ s (8 * k)) as (a0&a1&a2&a3&a4&a5&a6&a7&rest&->&Hr); [lia|].
    cbn [app]. rewrite !bytes_of_bits_cons8, (IH rest t Hr). reflexivity.
Qed.

Lemma bytes_of_bits_length_exact (k : nat) : forall s : list bool,
  length s = (8 * k)%nat -> length (bytes_of_bits s) = k.
Proof.
  induction k as [|k IH]; intros s Hlen.
  - destruct s; [reflexivity|discriminate Hlen].
  - destruct (split8 _ s (8 * k)) as (a0&a1&a2&a3&a4&a5&a6&a7&rest&->&Hr); [lia|].
    rewrite bytes_of_bits_cons8. cbn [length]. now rewrite (IH rest Hr).
Qed.

Lemma bits_of_bytes_of_bits (k : nat) : forall s : list bool,
  length s = (8 * k)%nat -> bits_of_bytes (bytes_of_bits s) = s.
Proof.
  induction k as [|k IH]; intros s Hlen.
  - destruct s; [reflexivity|discriminate Hlen].
  - destruct (split8 _ s (8 * k)) as (a0&a1&a2&a3&a4&a5&a6&a7&rest&->&Hr); [lia|].
    rewrite bytes_of_bits_cons8. cbn [bits_of_bytes flat_map].
    fold (bits_of_bytes (bytes_of_bits rest)).
    rewrite format_of_byte, (IH rest Hr). reflexivity.
Qed.

Lemma bytes_of_bits_of_bytes (bs : list byte) (t : list bool) :
  bytes_of_bits (bits_of_bytes bs ++ t) = bs ++ bytes_of_bits t.
Proof.
  induction bs as [|b bs IH]; [reflexivity|].
  cbn [bits_of_bytes flat_map]. fold (bits_of_bytes bs).
  rewrite <- app_assoc.
  pose proof (byte_of_format b) as Hb.
  remember (format_08b b) as f eqn:Hf.
  assert (Hl : length f = 8%nat) by (subst f; apply format_08b_length).
  do 8 (destruct f as [|? f]; [discriminate Hl|]).
  destruct f; [|discriminate Hl].
  cbn [app]. rewrite bytes_of_bits_cons8, Hb, IH. reflexivity.
Qed.

(** Every eight bits, or part thereof, yield one byte. *)
Lemma bytes_of_bits_length_ge : forall (k : nat) (s : list bool),
  (8 * k <= length s)%nat -> (k <= length (bytes_of_bits s))%nat.
Proof.
  induction k as [|k IH]; intros s Hlen; [lia|].
  destruct (split8 _ (firstn (8 * S k) s) (8 * k)) as (a0&a1&a2&a3&a4&a5&a6&a7&rest&E&Hr).
  { rewrite length_firstn. lia. }
  rewrite <- (firstn_skipn (8 * S k) s), E. cbn [app].
  rewrite bytes_of_bits_cons8. cbn [length].
  apply le_n_S, IH. rewrite length_app. lia.
Qed.

(** The dead branch of [byte_of_int]: at most eight binary digits stay
    below 256. *)
Lemma int2_snoc (s : list bool) (c : bool) :
  int2 (s ++ [c]) = (2 * int2 s + (if c then 1 else 0))%N.
Proof. unfold int2. now rewrite fold_left_app. Qed.

Lemma int2_bound (s : list bool) : (int2 s < 2 ^ N.of_nat (length s))%N.
Proof.
  induction s as [|c s IH] using rev_ind; [reflexivity|].
  rewrite int2_snoc, length_app, Nat.add_comm. cbn [length Nat.add].
  rewrite Nat2N.inj_succ, N.pow_succ_r'. destruct c; lia.
Qed.

Lemma int2_lt_256 (s : list bool) : (length s <= 8)%nat -> (int2 s < 256)%N.
Proof.
  intros H. pose proof (int2_bound s) as B.
  assert (2 ^ N.of_nat (length s) <= 2 ^ 8)%N by (apply N.pow_le_mono_r; lia).
  change (2 ^ 8)%N with 256%N in *. lia.
Qed.

Lemma chunks8_short : forall s c, In c (chunks8 s) -> (length c <= 8)%nat.
Proof.
  fix IH 1. intros s c.
  destruct s as [|b0 [|b1 [|b2 [|b3 [|b4 [|b5 [|b6 [|b7 rest]]]]]]]]; cbn [chunks8 In];
    try (intros [<-|[]]; cbn; lia).
  - intros [].
  - intros [<-|H]; [cbn; lia|]. exact (IH rest c H).
Qed.

Lemma bytes_of_bits_in_range (s : list bool) :
  Forall (fun chunk => Byte.of_N (int2 chunk) <> None) (chunks8 s).
Proof.
  apply Forall_forall. intros c Hc E.
  apply Byte.of_N_None_iff in E.
  pose proof (int2_lt_256 c (chunks8_short s c Hc)). lia.
Qed.

End BitsFacts.

(** ** The framing codec *)

Module FramingFacts.
Import BitsFacts SliceFacts.

Local Ltac Zify.zify_post_hook ::= Z.to_euclidean_division_equations.

Lemma byte_of_int_to_N (n : N) : (n < 256)%N -> Byte.to_N (byte_of_int n) = n.
Proof.
  intros H. unfold byte_of_int.
  destruct (Byte.of_N n) as [b|] eqn:E.
  - now apply Byte.to_of_N.
  - apply Byte.of_N_None_iff in E. lia.
Qed.

(** The four big-endian bytes of a length below 2^32 read back as that
    length. *)
Lemma to_bytes4_big_spec (n : N) (bs : list byte) :
  to_bytes4_big n = Some bs -> length bs = 4%nat /\ from_bytes_big bs = n.
Proof.
  unfold to_bytes4_big. destruct (n <? 2 ^ 32)%N eqn:E; [|discriminate].
  apply N.ltb_lt in E. intros [= <-]. split; [reflexivity|].
  cbn [map from_bytes_big fold_left].
  rewrite !byte_of_int_to_N by (apply N.mod_lt; discriminate).
  change (2 ^ (8 * 3))%N with 16777216%N. change (2 ^ (8 * 2))%N with 65536%N.
  change (2 ^ (8 * 1))%N with 256%N. change (2 ^ (8 * 0))%N with 1%N.
  change (2 ^ 32)%N with 4294967296%N in E.
  lia.
Qed.

Lemma to_bytes4_big_some (n : N) :
  (n < 2 ^ 32)%N -> exists bs, to_bytes4_big n = Some bs.
Proof.
  intros H. unfold to_bytes4_big. apply N.ltb_lt in H. rewrite H. eauto.
Qed.

Lemma bytes_neq_false (a b : list byte) : bytes_neq a b = false <-> a = b.
Proof. unfold bytes_neq. destruct (list_eq_dec _ a b); split; congruence. Qed.

Lemma bytes_neq_true (a b : list byte) : bytes_neq a b = true <-> a <> b.
Proof. unfold bytes_neq. destruct (list_eq_dec _ a b); split; congruence. Qed.

(** What [_bitstream_to_payload] does once the rebuilt bytes start with the
    marker and four length bytes. *)
Lemma parse_framed (bitstream : list bool) (length_bytes rest : list byte) :
  bytes_of_bits bitstream = MARKER ++ length_bytes ++ rest ->
  length length_bytes = 4%nat ->
  _bitstream_to_payload bitstream =
    let L := N.to_nat (from_bytes_big length_bytes) in
    if (length rest <? L)%nat then Failed TruncatedPayload
    else Written (firstn L rest).
Proof.
  intros E H4. unfold _bitstream_to_payload. rewrite E.
  change (length MARKER) with 11%nat.
  assert (Hl : length (MARKER ++ length_bytes ++ rest) = (15 + length rest)%nat).
  { rewrite !length_app, H4. change (length MARKER) with 11%nat. lia. }
  rewrite Hl.
  replace (15 + length rest <? 11 + 4)%nat with false by (symmetry; apply Nat.ltb_ge; lia).
  replace (firstn 11 (MARKER ++ length_bytes ++ rest)) with MARKER
    by (now rewrite firstn_app_left by reflexivity).
  replace (bytes_neq MARKER MARKER) with false by (symmetry; now apply bytes_neq_false).
  replace (skipn 11 (MARKER ++ length_bytes ++ rest)) with (length_bytes ++ rest)
    by (now rewrite skipn_app_left by reflexivity).
  replace (11 + 4 - 11)%nat with (length length_bytes) by lia.
  rewrite firstn_app_left by reflexivity.
  replace (skipn (11 + 4) (MARKER ++ length_bytes ++ rest)) with rest.
  2:{ rewrite app_assoc. rewrite skipn_app_left; [reflexivity|].
      rewrite length_app, H4. reflexivity. }
  cbv zeta. set (L := N.to_nat (from_bytes_big length_bytes)).
  rewrite length_firstn.
  destruct (length rest <? L)%nat eqn:Hlt.
  - apply Nat.ltb_lt in Hlt.
    replace (Nat.min L (length rest) =? L)%nat with false; [reflexivity|].
    symmetry. apply Nat.eqb_neq. lia.
  - apply Nat.ltb_ge in Hlt.
    replace (Nat.min L (length rest) =? L)%nat with true; [reflexivity|].
    symmetry. apply Nat.eqb_eq. lia.
Qed.

(** Serialising yields marker, length and payload bits, in that order. *)
Lemma serialize_some (payload : list byte) :
  (N.of_nat (length payload) < 2 ^ 32)%N ->
  exists length_bytes,
    length length_bytes = 4%nat /\
    from_bytes_big length_bytes = N.of_nat (length payload) /\
    _payload_to_bitstream payload
    = Some (bits_of_bytes (MARKER ++ length_bytes ++ payload)).
Proof.
  intros H. destruct (to_bytes4_big_some _ H) as [bs Hbs].
  destruct (to_bytes4_big_spec _ _ Hbs) as [H4 Hv].
  exists bs. repeat split; trivial.
  unfold _payload_to_bitstream. rewrite Hbs. now rewrite <- app_assoc.
Qed.

(** Parsing a serialised payload followed by any further bits gives the
    payload back. *)
Lemma parse_serialized (payload : list byte) (bits extra : list bool) :
  _payload_to_bitstream payload = Some bits ->
  _bitstream_to_payload (bits ++ extra) = Written payload.
Proof.
  intros Hs.
  assert (Hlt : (N.of_nat (length payload) < 2 ^ 32)%N).
  { unfold _payload_to_bitstream, to_bytes4_big in Hs.
    destruct (N.of_nat (length payload) <? 2 ^ 32)%N eqn:E; [|discriminate].
    now apply N.ltb_lt. }
  destruct (serialize_some _ Hlt) as (lb & H4 & Hv & E).
  assert (Hb : bits = bits_of_bytes (MARKER ++ lb ++ payload)) by congruence.
  subst bits. clear Hs E.
  rewrite (parse_framed _ lb (payload ++ bytes_of_bits extra)); trivial.
  2:{ rewrite bytes_of_bits_of_bytes. now rewrite <- !app_assoc. }
  cbv zeta. rewrite Hv, Nat2N.id.
  replace (length (payload ++ bytes_of_bits extra) <? length payload)%nat with false.
  - now rewrite firstn_app_left by reflexivity.
  - symmetry. apply Nat.ltb_ge. rewrite length_app. lia.
Qed.

(** The marker test on bytes is the marker test on the first 88 bits. *)
Lemma marker_bytes_iff_bits (bitstream : list bool) :
  (length MARKER * 8 <= length bitstream)%nat ->
  firstn (length MARKER) (bytes_of_bits bitstream) = MARKER <->
  firstn (length MARKER * 8) bitstream = bits_of_bytes MARKER.
Proof.
  change (length MARKER) with 11%nat. change (11 * 8)%nat with 88%nat. intros Hlen.
  assert (H88 : length (firstn 88 bitstream) = (8 * 11)%nat)
    by (rewrite length_firstn; lia).
  assert (Hfront : firstn 11 (bytes_of_bits bitstream)
                   = bytes_of_bits (firstn 88 bitstream)).
  { rewrite <- (firstn_skipn 88 bitstream) at 1.
    rewrite (bytes_of_bits_app 11 _ _ H88).
    apply firstn_app_left. symmetry. now apply bytes_of_bits_length_exact. }
  rewrite Hfront. split; intros H.
  - rewrite <- H. symmetry. now apply (bits_of_bytes_of_bits 11).
  - rewrite H, <- (app_nil_r (bits_of_bytes MARKER)), bytes_of_bits_of_bytes.
    apply app_nil_r.
Qed.

Lemma parse_wrong_marker (bitstream : list bool) :
  (length MARKER + 4 <= length (bytes_of_bits bitstream))%nat ->
  firstn (length MARKER) (bytes_of_bits bitstream) <> MARKER ->
  _bitstream_to_payload bitstream = Failed MarkerMismatch.
Proof.
  intros Hlen Hne. unfold _bitstream_to_payload.
  replace (length (bytes_of_bits bitstream) <? length MARKER + 4)%nat with false
    by (symmetry; apply Nat.ltb_ge; exact Hlen).
  apply bytes_neq_true in Hne. now rewrite Hne.
Qed.

End FramingFacts.

(** ** The bit codec *)

Module CodecFacts.

Local Open Scope Q_scope.

Example round_half_even_values :
  map round_half_even [1 # 2; 3 # 2; 5 # 2; - (1 # 2); - (3 # 2); 7 # 10; - (7 # 10); 3]
  = [0; 2; 2; 0; -2; 1; -1; 3]%Z.
Proof. reflexivity. Qed.

(** Coefficient 0 with bit 1 goes to 2: [round(-0.5)] is 0. *)
Example Encode_values :
  Encode 0 true == 2 /\ Encode 0 false == 0 /\ Encode (27 # 2) true == 14 /\
  Encode (27 # 2) false == 12.
Proof. repeat split; reflexivity. Qed.

Example Decode_values :
  map Decode [0; 2; 1; 3; 11 # 10; 9 # 10; 27 # 2] =
  [false; true; false; false; true; false; true].
Proof. reflexivity. Qed.

Lemma round_half_even_bounds (x : Q) :
  x - (1 # 2) <= inject_Z (round_half_even x) <= x + (1 # 2).
Proof.
  unfold round_half_even.
  pose proof (Qfloor_le x) as Hlo. pose proof (Qlt_floor x) as Hhi.
  rewrite inject_Z_plus in Hhi. change (inject_Z 1) with 1 in Hhi.
  set (f := Qfloor x) in *.
  destruct (Qcompare_spec (x - inject_Z f) (1 # 2)) as [E|E|E].
  - destruct (Z.even f); [|rewrite inject_Z_plus; change (inject_Z 1) with 1]; lra.
  - lra.
  - rewrite inject_Z_plus. change (inject_Z 1) with 1. lra.
Qed.

Lemma inject_Z_pos (z : Z) : (0 < z)%Z -> 0 < inject_Z z.
Proof. unfold Qlt. cbn. lia. Qed.

Lemma inject_Z_nonneg (z : Z) : (0 <= z)%Z -> 0 <= inject_Z z.
Proof. unfold Qle. cbn. lia. Qed.

Lemma inject_Z_ge_1 (z : Z) : (1 <= z)%Z -> 1 <= inject_Z z.
Proof. unfold Qle. cbn. lia. Qed.

Lemma no_integer_inside_unit (z : Z) : 0 < inject_Z z -> inject_Z z < 1 -> False.
Proof. unfold Qlt. cbn. lia. Qed.

(** Within less than a half of an integer, [round] returns that integer. *)
Lemma round_half_even_near (k : Z) (x : Q) :
  Qabs (x - inject_Z k) < 1 # 2 -> round_half_even x = k.
Proof.
  intros H. apply Qabs_Qlt_condition in H. destruct H as [H1 H2].
  pose proof (round_half_even_bounds x) as [B1 B2].
  set (n := round_half_even x) in *.
  destruct (Z.lt_trichotomy n k) as [L|[E|L]]; [|exact E|]; exfalso.
  - apply (no_integer_inside_unit (k - n)).
    + apply inject_Z_pos. lia.
    + unfold Z.sub. rewrite inject_Z_plus, inject_Z_opp. lra.
  - apply (no_integer_inside_unit (n - k)).
    + apply inject_Z_pos. lia.
    + unfold Z.sub. rewrite inject_Z_plus, inject_Z_opp. lra.
Qed.

(** A point of one lattice is at least [q/2 = 2] away from every point of
    the other. *)
Lemma lattices_apart (k m : Z) (d : Q) :
  Qabs d < 1 ->
  1 < Qabs (inject_Z k * 4 + d - (inject_Z m * 4 + 2)) /\
  1 < Qabs (inject_Z k * 4 + 2 + d - inject_Z m * 4).
Proof.
  intros H. apply Qabs_Qlt_condition in H. destruct H as [H1 H2].
  assert (Hk : inject_Z (k - m) == inject_Z k - inject_Z m).
  { unfold Z.sub. rewrite inject_Z_plus, inject_Z_opp. lra. }
  assert (Hm : inject_Z (m - k) == inject_Z m - inject_Z k).
  { unfold Z.sub. rewrite inject_Z_plus, inject_Z_opp. lra. }
  split.
  - destruct (Z_lt_le_dec m k) as [L|L].
    + assert (1 <= inject_Z (k - m)) by (apply inject_Z_ge_1; lia).
      apply Qlt_le_trans with (inject_Z k * 4 + d - (inject_Z m * 4 + 2)); [lra|apply Qle_Qabs].
    + assert (0 <= inject_Z (m - k)) by (apply inject_Z_nonneg; lia).
      apply Qlt_le_trans with (- (inject_Z k * 4 + d - (inject_Z m * 4 + 2))); [lra|].
      rewrite <- Qabs_opp. apply Qle_Qabs.
  - destruct (Z_lt_le_dec k m) as [L|L].
    + assert (1 <= inject_Z (m - k)) by (apply inject_Z_ge_1; lia).
      apply Qlt_le_trans with (- (inject_Z k * 4 + 2 + d - inject_Z m * 4)); [lra|].
      rewrite <- Qabs_opp. apply Qle_Qabs.
    + assert (0 <= inject_Z (k - m)) by (apply inject_Z_nonneg; lia).
      apply Qlt_le_trans with (inject_Z k * 4 + 2 + d - inject_Z m * 4); [lra|apply Qle_Qabs].
Qed.

Lemma nearest_zero_on_lattice (k : Z) (d : Q) :
  Qabs d < 1 -> nearest_zero (inject_Z k * 4 + d) = inject_Z k * 4.
Proof.
  intros H. unfold nearest_zero, QUANTIZATION_STEP.
  rewrite (round_half_even_near k); [reflexivity|].
  setoid_replace ((inject_Z k * 4 + d) / 4 - inject_Z k) with (d * (1 # 4)) by field.
  apply Qabs_Qlt_condition in H. apply Qabs_Qlt_condition. lra.
Qed.

Lemma nearest_one_on_lattice (k : Z) (d : Q) :
  Qabs d < 1 -> nearest_one (inject_Z k * 4 + 2 + d) = inject_Z k * 4 + 4 / 2.
Proof.
  intros H. unfold nearest_one, QUANTIZATION_STEP.
  rewrite (round_half_even_near k); [reflexivity|].
  setoid_replace ((inject_Z k * 4 + 2 + d - 4 / 2) / 4 - inject_Z k) with (d * (1 # 4))
    by field.
  apply Qabs_Qlt_condition in H. apply Qabs_Qlt_condition. lra.
Qed.

(** Decoding next to a point of the 0-lattice, and next to a point of the
    1-lattice. *)
Lemma Decode_near_zero_lattice (k : Z) (d : Q) :
  Qabs d < 1 -> Decode (inject_Z k * 4 + d) = false.
Proof.
  intros H. unfold Decode. rewrite (nearest_zero_on_lattice k d H).
  set (c := inject_Z k * 4 + d).
  assert (Hz : Qabs (c - inject_Z k * 4) == Qabs d).
  { apply Qabs_wd. unfold c. lra. }
  unfold nearest_one, QUANTIZATION_STEP.
  set (m := round_half_even ((c - 4 / 2) / 4)).
  destruct (lattices_apart k m d H) as [Ha _]. fold c in Ha.
  assert (Hq : 4 / 2 == 2) by reflexivity.
  destruct (Qle_bool _ _) eqn:E; [reflexivity|exfalso].
  assert (Hle : Qle_bool (Qabs (c - inject_Z k * 4)) (Qabs (c - (inject_Z m * 4 + 4 / 2))) = true).
  { apply Qle_bool_iff. rewrite Hz, Hq. lra. }
  congruence.
Qed.

Lemma Decode_near_one_lattice (k : Z) (d : Q) :
  Qabs d < 1 -> Decode (inject_Z k * 4 + 2 + d) = true.
Proof.
  intros H. unfold Decode. rewrite (nearest_one_on_lattice k d H).
  set (c := inject_Z k * 4 + 2 + d).
  assert (Hz : Qabs (c - (inject_Z k * 4 + 4 / 2)) == Qabs d).
  { apply Qabs_wd. unfold c. setoid_replace (4 / 2) with 2 by reflexivity. lra. }
  unfold nearest_zero, QUANTIZATION_STEP.
  set (m := round_half_even (c / 4)).
  destruct (lattices_apart k m d H) as [_ Ha]. fold c in Ha.
  destruct (Qle_bool _ _) eqn:E; [exfalso|reflexivity].
  apply Qle_bool_iff in E. rewrite Hz in E. lra.
Qed.

(** [Encode] lands on the lattice of its bit. *)
Lemma Encode_on_lattice (c0 : Q) (b : bool) :
  exists k : Z, Encode c0 b = if b then inject_Z k * 4 + 4 / 2 else inject_Z k * 4.
Proof.
  unfold Encode, QUANTIZATION_STEP. destruct b; cbn [negb]; eauto.
Qed.

(** [Encode] moves a coefficient by at most [q/2 = 2]. *)
Lemma Encode_nearest (c0 : Q) (b : bool) : Qabs (c0 - Encode c0 b) <= 2.
Proof.
  unfold Encode, QUANTIZATION_STEP. apply Qabs_Qle_condition.
  destruct b; cbn [negb].
  - pose proof (round_half_even_bounds ((c0 - 4 / 2) / 4)) as [B1 B2].
    set (n := inject_Z (round_half_even ((c0 - 4 / 2) / 4))) in *.
    setoid_replace ((c0 - 4 / 2) / 4) with (c0 * (1 # 4) - (1 # 2)) in B1 by field.
    setoid_replace ((c0 - 4 / 2) / 4) with (c0 * (1 # 4) - (1 # 2)) in B2 by field.
    setoid_replace (4 / 2) with 2 by reflexivity. lra.
  - pose proof (round_half_even_bounds (c0 / 4)) as [B1 B2].
    set (n := inject_Z (round_half_even (c0 / 4))) in *.
    setoid_replace (c0 / 4) with (c0 * (1 # 4)) in B1 by field.
    setoid_replace (c0 / 4) with (c0 * (1 # 4)) in B2 by field.
    lra.
Qed.

(** The comparison in [Decode] is [<=]. *)
Lemma Decode_false_iff (c : Q) :
  Decode c = false <-> Qabs (c - nearest_zero c) <= Qabs (c - nearest_one c).
Proof.
  unfold Decode. rewrite <- Qle_bool_iff.
  destruct (Qle_bool _ _); split; congruence.
Qed.

(** The codec does not depend on how a rational is written. *)
Lemma round_half_even_comp (x y : Q) : x == y -> round_half_even x = round_half_even y.
Proof.
  intros E. unfold round_half_even.
  rewrite (Qfloor_comp x y E).
  assert (C : (x - inject_Z (Qfloor y) ?= 1 # 2) = (y - inject_Z (Qfloor y) ?= 1 # 2)).
  { apply Qcompare_comp; [now rewrite E|reflexivity]. }
  now rewrite C.
Qed.

Lemma nearest_zero_comp (x y : Q) : x == y -> nearest_zero x = nearest_zero y.
Proof.
  intros E. unfold nearest_zero.
  rewrite (round_half_even_comp (x / QUANTIZATION_STEP) (y / QUANTIZATION_STEP));
    [reflexivity|now rewrite E].
Qed.

Lemma nearest_one_comp (x y : Q) : x == y -> nearest_one x = nearest_one y.
Proof.
  intros E. unfold nearest_one.
  rewrite (round_half_even_comp ((x - QUANTIZATION_STEP / 2) / QUANTIZATION_STEP)
                                ((y - QUANTIZATION_STEP / 2) / QUANTIZATION_STEP));
    [reflexivity|now rewrite E].
Qed.

Lemma Qle_bool_comp (a a' b b' : Q) :
  a == a' -> b == b' -> Qle_bool a b = Qle_bool a' b'.
Proof.
  intros Ea Eb.
  destruct (Qle_bool a b) eqn:E1, (Qle_bool a' b') eqn:E2; trivial.
  - apply Qle_bool_iff in E1. rewrite Ea, Eb in E1. apply Qle_bool_iff in E1. congruence.
  - apply Qle_bool_iff in E2. rewrite <- Ea, <- Eb in E2. apply Qle_bool_iff in E2. congruence.
Qed.

Lemma Decode_comp (x y : Q) : x == y -> Decode x = Decode y.
Proof.
  intros E. unfold Decode.
  rewrite (nearest_zero_comp x y E), (nearest_one_comp x y E).
  rewrite (Qle_bool_comp (Qabs (x - nearest_zero y)) (Qabs (y - nearest_zero y))
                         (Qabs (x - nearest_one y)) (Qabs (y - nearest_one y)));
    [reflexivity| |]; apply Qabs_wd; now rewrite E.
Qed.

(** Noise below [q/4 = 1] around an encoded coefficient does not change the
    decoded bit. *)
Lemma Decode_Encode_noise (c0 e : Q) (b : bool) :
  Qabs e < 1 -> Decode (Encode c0 b + e) = b.
Proof.
  intros H. unfold Encode, QUANTIZATION_STEP.
  destruct b; cbn [negb].
  - set (k := round_half_even ((c0 - 4 / 2) / 4)).
    rewrite <- (Decode_near_one_lattice k e H).
    apply Decode_comp. setoid_replace (4 / 2) with 2 by reflexivity. lra.
  - set (k := round_half_even (c0 / 4)).
    rewrite <- (Decode_near_zero_lattice k e H).
    now apply Decode_comp.
Qed.

End CodecFacts.

(** ** The embedder *)

Module EmbedFacts.
Import SliceFacts.

Section WithCarrier.

Variable block : Type.
Variable dct_coeff : block -> Q.
Variable store_coeff : block -> Q -> block.

Local Abbreviation embed_flat := (embed_flat dct_coeff store_coeff).
Local Abbreviation embed_band := (embed_band dct_coeff store_coeff).
Local Abbreviation embed_bands := (embed_bands dct_coeff store_coeff).
Local Abbreviation embed_frames := (embed_frames dct_coeff store_coeff).

Lemma embed_flat_nil (blocks : list block) : embed_flat blocks [] = blocks.
Proof. destruct blocks; reflexivity. Qed.

Lemma embed_flat_length (blocks : list block) : forall bits,
  length (embed_flat blocks bits) = length blocks.
Proof.
  induction blocks as [|blk blocks IH]; intros [|b bits]; cbn; trivial.
  now rewrite IH.
Qed.

Lemma embed_flat_app (a b : list block) : forall bits,
  embed_flat (a ++ b) bits = embed_flat a bits ++ embed_flat b (skipn (length a) bits).
Proof.
  induction a as [|blk a IH]; intros bits.
  - reflexivity.
  - destruct bits as [|bit bits].
    + cbn [app embed_flat length skipn]. now rewrite embed_flat_nil.
    + cbn [app embed_flat length skipn]. now rewrite IH.
Qed.

(** Blocks beyond the end of the bitstream are untouched. *)
Lemma embed_flat_skipn (blocks : list block) : forall bits,
  skipn (length bits) (embed_flat blocks bits) = skipn (length bits) blocks.
Proof.
  induction blocks as [|blk blocks IH]; intros [|b bits]; cbn; trivial.
Qed.

(** The inner loop of [embed] on one band. *)
Lemma embed_band_spec (row : band block) : forall st out st',
  embed_band row st = (out, st') ->
  out = embed_flat row (bitstream_iterator st) /\
  bitstream_iterator st' = skipn (length row) (bitstream_iterator st) /\
  bits_embedded st' =
    (bits_embedded st + Nat.min (length row) (length (bitstream_iterator st)))%nat /\
  embedding_complete st' =
    embedding_complete st || (length (bitstream_iterator st) <? length row)%nat.
Proof.
  induction row as [|blk row IH]; intros st out st' E.
  - cbn in E. injection E as <- <-. cbn.
    rewrite orb_false_r, Nat.add_0_r. repeat split; trivial.
  - cbn [embed_band] in E. destruct (bitstream_iterator st) as [|bit rest] eqn:Hit.
    + injection E as <- <-. cbn.
      rewrite orb_true_r, Nat.add_0_r. repeat split; trivial.
    + destruct (embed_band row _) as [out1 st1] eqn:E1.
      injection E as <- <-.
      destruct (IH _ _ _ E1) as (H1 & H2 & H3 & H4). cbn in H1, H2, H3, H4.
      cbn [embed_flat length skipn]. repeat split; trivial.
      * now rewrite H1.
      * rewrite H3. cbn. lia.
Qed.

(** The loop over the bands of a frame that is entered with the flag down. *)
Lemma embed_bands_spec (rows : frame block) : forall st out st',
  embed_bands rows st = (out, st') ->
  embedding_complete st = false ->
  concat out = embed_flat (concat rows) (bitstream_iterator st) /\
  map (@length block) out = map (@length block) rows /\
  bitstream_iterator st' = skipn (length (concat rows)) (bitstream_iterator st) /\
  bits_embedded st' =
    (bits_embedded st
     + Nat.min (length (concat rows)) (length (bitstream_iterator st)))%nat /\
  embedding_complete st' =
    (length (bitstream_iterator st) <? length (concat rows))%nat.
Proof.
  induction rows as [|row rows IH]; intros st out st' E Hc.
  - cbn in E. injection E as <- <-. cbn.
    rewrite Nat.add_0_r, Nat.ltb_irrefl || rewrite Nat.add_0_r.
    repeat split; trivial.
  - cbn [embed_bands] in E.
    destruct (embed_band row st) as [row_out st1] eqn:E1.
    destruct (embed_band_spec _ _ _ _ E1) as (H1 & H2 & H3 & H4).
    rewrite Hc in H4. cbn [orb] in H4.
    cbn [concat]. rewrite embed_flat_app, length_app, <- H1.
    destruct (embedding_complete st1) eqn:Hc1.
    + injection E as <- <-. symmetry in H4. apply Nat.ltb_lt in H4.
      assert (Hnil : skipn (length row) (bitstream_iterator st) = [])
        by (apply skipn_all2; lia).
      cbn [concat map]. rewrite Hnil, embed_flat_nil.
      repeat split; trivial.
      * f_equal. subst row_out. apply embed_flat_length.
      * rewrite H2, Hnil. symmetry. apply skipn_all2. lia.
      * rewrite H3. lia.
      * rewrite Hc1. symmetry. apply Nat.ltb_lt. lia.
    + destruct (embed_bands rows st1) as [rows_out st2] eqn:E2.
      injection E as <- <-.
      destruct (IH _ _ _ E2 Hc1) as (G1 & G2 & G3 & G4 & G5).
      symmetry in H4. apply Nat.ltb_ge in H4.
      cbn [concat map]. rewrite G1, H2. repeat split; trivial.
      * f_equal; trivial. subst row_out. apply embed_flat_length.
      * rewrite G3, H2, skipn_skipn. f_equal. lia.
      * rewrite G4, H3, H2, length_skipn. lia.
      * rewrite G5, H2, length_skipn.
        destruct (Nat.ltb_spec (length (bitstream_iterator st) - length row) (length (concat rows)));
        symmetry; [apply Nat.ltb_lt|apply Nat.ltb_ge]; lia.
Qed.

(** The loop over the frames: the flag is only ever up once the iterator is
    empty. *)
Lemma embed_frames_spec (frames : list (frame block)) : forall st out st',
  embed_frames frames st = (out, st') ->
  (embedding_complete st = true -> bitstream_iterator st = []) ->
  blocks_of out = embed_flat (blocks_of frames) (bitstream_iterator st) /\
  map (map (@length block)) out = map (map (@length block)) frames /\
  bitstream_iterator st' =
    skipn (length (blocks_of frames)) (bitstream_iterator st) /\
  bits_embedded st' =
    (bits_embedded st
     + Nat.min (length (blocks_of frames)) (length (bitstream_iterator st)))%nat /\
  (embedding_complete st = false ->
   embedding_complete st' =
     (length (bitstream_iterator st) <? length (blocks_of frames))%nat).
Proof.
  induction frames as [|f frames IH]; intros st out st' E Hinv.
  - cbn in E. injection E as <- <-. cbn. rewrite Nat.add_0_r. repeat split; trivial.
  - cbn [embed_frames] in E.
    destruct (embedding_complete st) eqn:Hc; cbn [negb] in E.
    + destruct (embed_frames frames st) as [rest st2] eqn:E2.
      injection E as <- <-.
      destruct (IH _ _ _ E2) as (G1 & G2 & G0 & G3 & _); [now rewrite Hc|].
      rewrite (Hinv eq_refl) in *. cbn [length] in *.
      rewrite embed_flat_nil in *. rewrite Nat.min_0_r in *.
      rewrite skipn_nil in *.
      unfold blocks_of in *. cbn [flat_map map].
      rewrite G1, G2. repeat split; trivial. discriminate.
    + destruct (embed_bands f st) as [written st1] eqn:E1.
      destruct (embed_frames frames st1) as [rest st2] eqn:E2.
      injection E as <- <-.
      destruct (embed_bands_spec _ _ _ _ E1 Hc) as (H1 & H2 & H3 & H4 & H5).
      destruct (IH _ _ _ E2) as (G1 & G2 & G0 & G3 & G4).
      { intros Hc1. rewrite Hc1 in H5. symmetry in H5. apply Nat.ltb_lt in H5.
        rewrite H3. apply skipn_all2. lia. }
      unfold blocks_of in *. cbn [flat_map map].
      change (blocks_of_frame written) with (concat written).
      change (blocks_of_frame f) with (concat f).
      rewrite embed_flat_app, <- H1, G1, H3, H2, G2, length_app.
      repeat split; trivial.
      * rewrite G0, H3, skipn_skipn. f_equal. lia.
      * rewrite G3, H4, H3, length_skipn. lia.
      * intros _.
        destruct (embedding_complete st1) eqn:Hc1.
        -- symmetry in H5. apply Nat.ltb_lt in H5.
           assert (Hit1 : bitstream_iterator st1 = [])
             by (rewrite H3; apply skipn_all2; lia).
           clear G4.
           assert (Hst2 : embedding_complete st2 = true).
           { clear - E2 Hc1. revert st1 rest st2 E2 Hc1.
             induction frames as [|g frames IHf]; intros st1 rest st2 E2 Hc1.
             - cbn in E2. now injection E2 as <- <-.
             - cbn [embed_frames] in E2. rewrite Hc1 in E2. cbn [negb] in E2.
               destruct (embed_frames frames st1) as [r s] eqn:E3.
               injection E2 as <- <-. eapply IHf; eauto. }
           rewrite Hst2. symmetry. apply Nat.ltb_lt. lia.
        -- rewrite (G4 eq_refl), H3, length_skipn.
           symmetry in H5. apply Nat.ltb_ge in H5.
           destruct (Nat.ltb_spec (length (bitstream_iterator st) - length (concat f))
                                  (length (flat_map blocks_of_frame frames)));
           symmetry; [apply Nat.ltb_lt|apply Nat.ltb_ge]; lia.
Qed.

(** Once the flag is up, [embed] hands every frame on as it is. *)
Lemma embed_frames_complete (frames : list (frame block)) (st : embed_state) :
  embedding_complete st = true -> embed_frames frames st = (frames, st).
Proof.
  intros Hc. induction frames as [|f frames IH]; [reflexivity|].
  cbn [embed_frames]. rewrite Hc. cbn [negb]. now rewrite IH.
Qed.

Lemma embed_frames_app (a b : list (frame block)) : forall st,
  embed_frames (a ++ b) st =
    let '(out_a, st1) := embed_frames a st in
    let '(out_b, st2) := embed_frames b st1 in
    (out_a ++ out_b, st2).
Proof.
  induction a as [|f a IH]; intros st.
  - cbn. now destruct (embed_frames b st).
  - cbn [app embed_frames].
    destruct (if negb (embedding_complete st) then embed_bands f st else (f, st))
      as [written st1].
    rewrite IH. destruct (embed_frames a st1) as [out_a st2].
    now destruct (embed_frames b st2).
Qed.

Lemma embed_frames_length (frames : list (frame block)) : forall st,
  length (fst (embed_frames frames st)) = length frames.
Proof.
  induction frames as [|f frames IH]; intros st; [reflexivity|].
  cbn [embed_frames].
  destruct (if negb (embedding_complete st) then embed_bands f st else (f, st))
    as [written st1].
  specialize (IH st1). destruct (embed_frames frames st1). cbn in *. now rewrite IH.
Qed.

End WithCarrier.

End EmbedFacts.

(** ** The extractor *)

Module ExtractFacts.
Import BitsFacts SliceFacts FramingFacts.

Lemma header_len_bits_value : header_len_bits = 120%nat.
Proof. reflexivity. Qed.

Lemma firstn_snoc_nth (A : Type) (d : A) (l : list A) : forall k,
  (k < length l)%nat -> firstn (S k) l = firstn k l ++ [nth k l d].
Proof.
  induction l as [|x l IH]; intros k Hk; [cbn in Hk; lia|].
  destruct k as [|k]; [reflexivity|].
  cbn [firstn nth app]. cbn in Hk. f_equal. apply IH. lia.
Qed.

Lemma skipn_cons_nth (A : Type) (d : A) (l : list A) : forall k,
  (k < length l)%nat -> skipn k l = nth k l d :: skipn (S k) l.
Proof.
  induction l as [|x l IH]; intros k Hk; [cbn in Hk; lia|].
  destruct k as [|k]; [reflexivity|].
  cbn [skipn nth]. cbn in Hk. rewrite (IH k) by lia. reflexivity.
Qed.

Lemma agree_app (a b ts : list bool) :
  agree (a ++ b) ts -> agree a ts /\ agree b (skipn (length a) ts).
Proof.
  revert ts. induction a as [|x a IH]; intros ts H.
  - split; [constructor|exact H].
  - cbn [app] in H. inversion H as [| |c ds ts' H' E1 E2]; subst.
    + split; [constructor|]. rewrite skipn_nil. constructor.
    + destruct (IH _ H') as [Ha Hb]. split; [now constructor|exact Hb].
Qed.

Lemma agree_cons_inv (x y : bool) (ds ts : list bool) :
  agree (x :: ds) (y :: ts) -> x = y /\ agree ds ts.
Proof. intros H. inversion H; subst. now split. Qed.

(** [extract] sees a frame only through the designated coefficients of its
    blocks: a run on any carrier is the run on those coefficients. *)
Section OnCoefficients.

Variable block : Type.
Variable dct_coeff : block -> Q.

Lemma extract_band_on_coefficients (row : band block) : forall st,
  extract_band dct_coeff row st
  = extract_band Lossless.dct_coeff (map dct_coeff row) st.
Proof.
  induction row as [|blk row IH]; intros st; [reflexivity|].
  cbn [extract_band map].
  change (extract_block Lossless.dct_coeff (dct_coeff blk) st)
    with (extract_block dct_coeff blk st).
  destruct (extract_block dct_coeff blk st) as [st' broke].
  destruct broke; [reflexivity|apply IH].
Qed.

Lemma extract_bands_on_coefficients (rows : frame block) : forall st,
  extract_bands dct_coeff rows st
  = extract_bands Lossless.dct_coeff (map (map dct_coeff) rows) st.
Proof.
  induction rows as [|row rows IH]; intros st; [reflexivity|].
  cbn [extract_bands map]. rewrite <- extract_band_on_coefficients.
  destruct (extraction_failed _ || enough_bits _); [reflexivity|apply IH].
Qed.

Lemma extract_frames_on_coefficients (frames : list (frame block)) : forall st,
  extract_frames dct_coeff frames st
  = extract_frames Lossless.dct_coeff (coefficients dct_coeff frames) st.
Proof.
  induction frames as [|f frames IH]; intros st; [reflexivity|].
  cbn [extract_frames coefficients map].
  rewrite <- extract_bands_on_coefficients. apply IH.
Qed.

Lemma extract_on_coefficients (frames : list (frame block)) :
  extract dct_coeff frames
  = extract Lossless.dct_coeff (coefficients dct_coeff frames).
Proof.
  unfold extract. now rewrite extract_frames_on_coefficients.
Qed.

End OnCoefficients.

Section AfterTheBreak.

Variable block : Type.
Variable dct_coeff : block -> Q.

(** The [while True] loop has no exit of its own.  Once enough bits are in,
    every further frame with a block in its first band still has that block
    decoded and its bit appended before the two [break]s are taken again. *)
Lemma extract_bands_when_enough (blk : block) (row : band block)
    (rows : frame block) (st : extract_state) :
  enough_bits st = true ->
  extract_bands dct_coeff ((blk :: row) :: rows) st =
    {| extracted_bits := extracted_bits st ++ [Decode (dct_coeff blk)];
       total_bits_to_extract := total_bits_to_extract st;
       extraction_failed := extraction_failed st |}.
Proof.
  intros H. unfold enough_bits in H.
  destruct (total_bits_to_extract st) as [total|] eqn:Ht; [|discriminate].
  apply andb_true_iff in H. destruct H as [Hnz Hle]. apply N.leb_le in Hle.
  set (st' := {| extracted_bits := extracted_bits st ++ [Decode (dct_coeff blk)];
                 total_bits_to_extract := Some total;
                 extraction_failed := extraction_failed st |}).
  assert (He : enough_bits st' = true).
  { unfold enough_bits, st'. cbn [total_bits_to_extract extracted_bits].
    rewrite Hnz, length_app. cbn [andb length]. apply N.leb_le. lia. }
  cbn [extract_bands extract_band]. unfold extract_block. rewrite Ht.
  fold st'. rewrite He. cbn iota. rewrite He. now rewrite orb_true_r.
Qed.

(** Likewise after a marker mismatch. *)
Lemma extract_bands_when_failed (blk : block) (row : band block)
    (rows : frame block) (st : extract_state) :
  total_bits_to_extract st = None ->
  extraction_failed st = true ->
  (header_len_bits <= length (extracted_bits st))%nat ->
  firstn (length MARKER * 8) (extracted_bits st) <> bits_of_bytes MARKER ->
  extract_bands dct_coeff ((blk :: row) :: rows) st =
    {| extracted_bits := extracted_bits st ++ [Decode (dct_coeff blk)];
       total_bits_to_extract := None;
       extraction_failed := true |}.
Proof.
  intros Ht Hf Hlen Hne. rewrite header_len_bits_value in Hlen.
  cbn [extract_bands extract_band]. unfold extract_block. rewrite Ht.
  set (bits := extracted_bits st ++ [Decode (dct_coeff blk)]).
  assert (Hl : (header_len_bits <=? length bits)%nat = true).
  { apply Nat.leb_le. unfold bits. rewrite length_app, header_len_bits_value. lia. }
  rewrite Hl.
  assert (Hm : bytes_neq (firstn (length MARKER) (bytes_of_bits bits)) MARKER = true).
  { apply bytes_neq_true. intros E. apply Hne.
    apply marker_bytes_iff_bits in E.
    - unfold bits in E. rewrite firstn_app_short in E; [exact E|].
      change (length MARKER * 8)%nat with 88%nat. lia.
    - unfold bits. rewrite length_app.
      change (length MARKER * 8)%nat with 88%nat. lia. }
  rewrite Hm. cbn iota. reflexivity.
Qed.

End AfterTheBreak.

Section WithStream.

Variable block : Type.
Variable dct_coeff : block -> Q.

(** The bitstream [T] of a payload, as [_payload_to_bitstream] lays it
    out. *)
Variable payload length_bytes : list byte.
Hypothesis length_bytes_4 : length length_bytes = 4%nat.
Hypothesis length_bytes_value :
  from_bytes_big length_bytes = N.of_nat (length payload).

Variable T : list bool.
Hypothesis T_layout : T = bits_of_bytes (MARKER ++ length_bytes ++ payload).


Lemma T_length : length T = (120 + 8 * length payload)%nat.
Proof.
  rewrite T_layout, bits_of_bytes_length, !length_app, length_bytes_4.
  change (length MARKER) with 11%nat. lia.
Qed.

Lemma T_header : firstn 120 T = bits_of_bytes (MARKER ++ length_bytes).
Proof.
  rewrite T_layout, app_assoc, bits_of_bytes_app.
  apply firstn_app_left. rewrite bits_of_bytes_length, length_app, length_bytes_4.
  reflexivity.
Qed.

Lemma T_header_bytes : bytes_of_bits (firstn 120 T) = MARKER ++ length_bytes.
Proof.
  rewrite T_header, <- (app_nil_r (bits_of_bytes _)), bytes_of_bits_of_bytes.
  apply app_nil_r.
Qed.

Lemma scanning_goes_on (k : nat) (st : extract_state) :
  scanning T k st -> extraction_failed st || enough_bits st = false.
Proof.
  intros (Hb & Hk & Hf & Ht). rewrite Hf. cbn [orb].
  unfold enough_bits. rewrite Ht.
  destruct (k <? header_len_bits)%nat; [reflexivity|].
  rewrite Hb, length_firstn.
  replace (N.of_nat (length T) <=? N.of_nat (Nat.min k (length T)))%N with false;
    [apply andb_false_r|].
  symmetry. apply N.leb_gt. lia.
Qed.

Lemma finished_enough (st : extract_state) :
  finished T st -> enough_bits st = true.
Proof.
  intros ((extra & Hb) & Hf & Ht). unfold enough_bits. rewrite Ht, Hb.
  pose proof T_length as HT. rewrite length_app.
  apply andb_true_iff. split.
  - apply negb_true_iff, N.eqb_neq. lia.
  - apply N.leb_le. lia.
Qed.

(** One block while bits of [T] are still awaited. *)
Lemma extract_block_scanning (blk : block) (k : nat) (st : extract_state) :
  scanning T k st ->
  Decode (dct_coeff blk) = nth k T false ->
  (S k < length T /\ scanning T (S k) (fst (extract_block dct_coeff blk st)) /\
   snd (extract_block dct_coeff blk st) = false)%nat \/
  (S k = length T /\ finished T (fst (extract_block dct_coeff blk st)) /\
   snd (extract_block dct_coeff blk st) = true).
Proof.
  intros (Hb & Hk & Hf & Ht) Hd.
  pose proof T_length as HT.
  unfold extract_block.
  rewrite Hb, Hd, <- (firstn_snoc_nth _ false T k Hk), Ht.
  assert (Hlen : length (firstn (S k) T) = S k) by (rewrite length_firstn; lia).
  rewrite Hlen, header_len_bits_value.
  destruct (Nat.ltb_spec k 120) as [Hlt|Hge].
  - destruct (Nat.leb_spec 120 (S k)) as [Hh|Hh].
    + assert (Hk120 : S k = 120%nat) by lia. rewrite Hk120.
      rewrite T_header_bytes.
      rewrite (firstn_app_left _ MARKER length_bytes (length MARKER) eq_refl).
      replace (bytes_neq MARKER MARKER) with false
        by (symmetry; now apply bytes_neq_false).
      rewrite (skipn_app_left _ MARKER length_bytes (length MARKER) eq_refl).
      rewrite (@firstn_all2 _ 4 length_bytes) by (rewrite length_bytes_4; lia).
      rewrite length_bytes_value.
      cbn [fst snd]. unfold enough_bits, finished, scanning.
      cbn [total_bits_to_extract extracted_bits extraction_failed].
      rewrite length_firstn.
      replace (N.of_nat 120 + N.of_nat (length payload) * 8)%N
        with (N.of_nat (length T)) by lia.
      destruct (length payload) as [|n] eqn:HL.
      * right. split; [lia|]. split.
        -- split; [|split; trivial].
           exists []. rewrite app_nil_r. apply firstn_all2. lia.
        -- apply andb_true_iff. split.
           ++ apply negb_true_iff, N.eqb_neq. lia.
           ++ apply N.leb_le. lia.
      * left. split; [lia|]. split.
        -- repeat split; trivial. lia.
        -- apply andb_false_iff. right. apply N.leb_gt. lia.
    + left. cbn [fst snd]. split; [lia|]. split.
      * unfold scanning. cbn [total_bits_to_extract extracted_bits extraction_failed].
        rewrite header_len_bits_value.
        replace (S k <? 120)%nat with true by (symmetry; apply Nat.ltb_lt; lia).
        repeat split; trivial. lia.
      * reflexivity.
  - cbn [fst snd]. unfold enough_bits, finished, scanning.
    cbn [total_bits_to_extract extracted_bits extraction_failed].
    rewrite Hlen, header_len_bits_value.
    replace (S k <? 120)%nat with false by (symmetry; apply Nat.ltb_ge; lia).
    destruct (Nat.eq_dec (S k) (length T)) as [E|E].
    + right. split; [exact E|]. split.
      * split; [|split; trivial].
        exists []. rewrite app_nil_r. apply firstn_all2. lia.
      * apply andb_true_iff. split.
        -- apply negb_true_iff, N.eqb_neq. lia.
        -- apply N.leb_le. lia.
    + left. split; [lia|]. split.
      * repeat split; trivial. lia.
      * apply andb_false_iff. right. apply N.leb_gt. lia.
Qed.

(** One block once all of [T] has been read: one more bit, and [break]. *)
Lemma extract_block_finished (blk : block) (st : extract_state) :
  finished T st ->
  finished T (fst (extract_block dct_coeff blk st)) /\ snd (extract_block dct_coeff blk st) = true.
Proof.
  intros ((extra & Hb) & Hf & Ht).
  pose proof T_length as HT.
  unfold extract_block. rewrite Ht.
  cbn [fst snd]. split.
  - split; [|split; trivial].
    cbn [extracted_bits]. exists (extra ++ [Decode (dct_coeff blk)]).
    rewrite Hb. now rewrite app_assoc.
  - unfold enough_bits. cbn [total_bits_to_extract extracted_bits].
    rewrite Hb, !length_app. apply andb_true_iff. split.
    + apply negb_true_iff, N.eqb_neq. lia.
    + apply N.leb_le. lia.
Qed.

Lemma extract_band_finished (row : band block) (st : extract_state) :
  finished T st -> finished T (extract_band dct_coeff row st).
Proof.
  intros H. destruct row as [|blk row]; [exact H|].
  cbn [extract_band].
  destruct (extract_block_finished blk st H) as [H1 H2].
  destruct (extract_block dct_coeff blk st) as [st' brk]. cbn in H1, H2. now rewrite H2.
Qed.

Lemma extract_band_scanning (row : band block) : forall k st,
  scanning T k st ->
  agree (decoded dct_coeff row) (skipn k T) ->
  (k + length row < length T /\ scanning T (k + length row) (extract_band dct_coeff row st))%nat \/
  (length T <= k + length row /\ finished T (extract_band dct_coeff row st))%nat.
Proof.
  induction row as [|blk row IH]; intros k st Hs Ha.
  - left. cbn. rewrite Nat.add_0_r. split; [apply Hs|exact Hs].
  - assert (Hk : (k < length T)%nat) by apply Hs.
    rewrite (skipn_cons_nth _ false T k Hk) in Ha. cbn [decoded map] in Ha.
    apply agree_cons_inv in Ha. destruct Ha as [Hd Ha'].
    cbn [extract_band].    destruct (extract_block_scanning blk k st Hs) as [(L1 & L2 & L3)|(L1 & L2 & L3)];
      [exact Hd| |];
      destruct (extract_block dct_coeff blk st) as [st' brk]; cbn [fst snd] in L2, L3; subst brk.
    + destruct (IH (S k) st' L2 Ha') as [[M1 M2]|[M1 M2]]; cbn [length].
      * left. rewrite Nat.add_succ_r. split; [lia|exact M2].
      * right. split; [lia|exact M2].
    + right. cbn [length]. split; [lia|exact L2].
Qed.

Lemma extract_bands_finished (rows : frame block) : forall st,
  finished T st -> finished T (extract_bands dct_coeff rows st).
Proof.
  destruct rows as [|row rows]; intros st H; [exact H|].
  cbn [extract_bands].  pose proof (extract_band_finished row st H) as H1.
  rewrite (finished_enough _ H1), orb_true_r. exact H1.
Qed.

Lemma extract_bands_scanning (rows : frame block) : forall k st,
  scanning T k st ->
  agree (decoded dct_coeff (concat rows)) (skipn k T) ->
  (k + length (concat rows) < length T /\
   scanning T (k + length (concat rows)) (extract_bands dct_coeff rows st))%nat \/
  (length T <= k + length (concat rows) /\ finished T (extract_bands dct_coeff rows st))%nat.
Proof.
  induction rows as [|row rows IH]; intros k st Hs Ha.
  - left. cbn. rewrite Nat.add_0_r. split; [apply Hs|exact Hs].
  - cbn [concat] in *. unfold decoded in Ha. rewrite map_app in Ha.
    apply agree_app in Ha. destruct Ha as [Ha1 Ha2].
    rewrite length_map, skipn_skipn in Ha2.
    cbn [extract_bands].    rewrite length_app.
    destruct (extract_band_scanning row k st Hs Ha1) as [[L1 L2]|[L1 L2]].
    + rewrite (scanning_goes_on _ _ L2).
      fold (extract_bands dct_coeff rows (extract_band dct_coeff row st)).
      rewrite Nat.add_comm in Ha2.
      destruct (IH _ _ L2 Ha2) as [[M1 M2]|[M1 M2]].
      * left. rewrite Nat.add_assoc. split; [lia|exact M2].
      * right. split; [lia|exact M2].
    + rewrite (finished_enough _ L2), orb_true_r. right. split; [lia|exact L2].
Qed.

Lemma extract_frames_finished (frames : list (frame block)) : forall st,
  finished T st -> finished T (extract_frames dct_coeff frames st).
Proof.
  induction frames as [|f frames IH]; intros st H; [exact H|].
  cbn [extract_frames].
  apply IH, extract_bands_finished, H.
Qed.

(** Frames whose blocks decode to [T], followed by anything, end the scan
    with [T] at the front of the accumulator. *)
Lemma extract_frames_scanning (frames : list (frame block)) : forall k st,
  scanning T k st ->
  agree (decoded dct_coeff (blocks_of frames)) (skipn k T) ->
  (length T <= k + length (blocks_of frames))%nat ->
  finished T (extract_frames dct_coeff frames st).
Proof.
  induction frames as [|f frames IH]; intros k st Hs Ha Hcap.
  - cbn in Hcap. destruct Hs as (_ & Hk & _). lia.
  - unfold blocks_of in *. cbn [flat_map] in *.
    change (blocks_of_frame f) with (concat f) in *.
    unfold decoded in Ha. rewrite map_app in Ha.
    apply agree_app in Ha. destruct Ha as [Ha1 Ha2].
    rewrite length_map, skipn_skipn in Ha2. rewrite length_app in Hcap.
    cbn [extract_frames].    destruct (extract_bands_scanning f k st Hs Ha1) as [[L1 L2]|[L1 L2]].
    + rewrite Nat.add_comm in Ha2. apply (IH _ _ L2 Ha2). lia.
    + now apply extract_frames_finished.
Qed.

Lemma scanning_initial :
  scanning T 0
    {| extracted_bits := []; total_bits_to_extract := None; extraction_failed := false |}.
Proof.
  pose proof T_length. unfold scanning. cbn. repeat split; trivial. lia.
Qed.

End WithStream.

End ExtractFacts.

(** ** Embedding followed by extraction *)

Module PipelineFacts.
Import BitsFacts SliceFacts FramingFacts CodecFacts EmbedFacts ExtractFacts.

Section WithCarrier.

Variable block : Type.
Variable dct_coeff : block -> Q.
Variable store_coeff : block -> Q -> block.

(** Where the carrier reads back what was stored, the blocks that received
    a bit decode to that bit. *)
Lemma reads_back_agree (blocks : list block) : forall bits,
  reads_back dct_coeff store_coeff blocks bits = true ->
  agree (decoded dct_coeff (embed_flat dct_coeff store_coeff blocks bits)) bits.
Proof.
  induction blocks as [|blk blocks IH]; intros [|bit bits] H;
    try (cbn; constructor; fail).
  cbn [reads_back] in H. apply andb_true_iff in H. destruct H as [Hnoise Hrest].
  cbn [embed_flat decoded map]. fold (decoded dct_coeff).
  replace (Decode (dct_coeff (embed_block dct_coeff store_coeff blk bit))) with bit.
  - constructor. now apply IH.
  - symmetry. unfold embed_block.
    set (v := Encode (dct_coeff blk) bit) in *.
    set (r := dct_coeff (store_coeff blk v)) in *.
    rewrite (Decode_comp r (v + (r - v))%Q) by (unfold Qminus; ring).
    apply Decode_Encode_noise.
    apply negb_true_iff in Hnoise.
    destruct (Qlt_le_dec (Qabs (r - v)) 1) as [Hlt|Hle]; [exact Hlt|exfalso].
    assert (Hq : Qle_bool (QUANTIZATION_STEP / 4) (Qabs (r - v)) = true).
    { apply Qle_bool_iff. unfold QUANTIZATION_STEP.
      setoid_replace (4 / 4)%Q with 1%Q by reflexivity. exact Hle. }
    congruence.
Qed.

(** Serialise, embed, extract: the payload comes back whenever the carrier
    is large enough and reads back what was stored. *)
Lemma pipeline_roundtrip (payload : list byte) (frames : list (frame block))
    (bits : list bool) :
  _payload_to_bitstream payload = Some bits ->
  (length bits <= capacity frames)%nat ->
  reads_back dct_coeff store_coeff (blocks_of frames) bits = true ->
  snd (extract dct_coeff
         (stego_frames (embed_bitstream dct_coeff store_coeff frames bits)))
  = Some (Written payload).
Proof.
  intros Hs Hcap Hrb.
  assert (Hlt : (N.of_nat (length payload) < 2 ^ 32)%N).
  { unfold _payload_to_bitstream, to_bytes4_big in Hs.
    destruct (N.of_nat (length payload) <? 2 ^ 32)%N eqn:E; [|discriminate].
    now apply N.ltb_lt. }
  destruct (serialize_some _ Hlt) as (lb & H4 & Hv & E).
  assert (Hb : bits = bits_of_bytes (MARKER ++ lb ++ payload)) by congruence.
  unfold embed_bitstream.
  destruct (embed_frames dct_coeff store_coeff frames _) as [out st] eqn:Eemb.
  cbn [stego_frames].
  destruct (embed_frames_spec _ _ _ _ _ _ _ Eemb) as (Hflat & _); [discriminate|].
  cbn [bitstream_iterator] in Hflat.
  assert (Hfin : finished bits
            (extract_frames dct_coeff out
               {| extracted_bits := []; total_bits_to_extract := None;
                  extraction_failed := false |})).
  { apply (extract_frames_scanning block dct_coeff payload lb H4 Hv bits Hb out 0%nat).
    - now apply scanning_initial with (payload := payload) (length_bytes := lb).
    - rewrite Hflat. cbn [skipn]. now apply reads_back_agree.
    - rewrite Hflat, embed_flat_length. exact Hcap. }
  destruct Hfin as ((extra & Hbits) & Hfail & _).
  unfold extract. cbn [snd]. rewrite Hfail, Hbits. cbn [negb].
  f_equal. now apply parse_serialized.
Qed.

End WithCarrier.

End PipelineFacts.

(** ** Sample blocks *)

Module GridFacts.
Import Examples.

(** [cv2_idct] undoes [cv2_dct]: the two matrices are inverse to each
    other. *)
Example idct_matrix_inverts :
  Grid.mat_mul Grid.idct_matrix Grid.dct_matrix = Grid.identity /\
  Grid.mat_mul Grid.dct_matrix Grid.idct_matrix = Grid.identity.
Proof. vm_compute. split; reflexivity. Qed.

(** A black block decodes to 0 and a [step_block 4] to 1. *)
Example sample_blocks_decode :
  Decode (Grid.dct_coeff (Grid.uniform_block 0)) = false /\
  Decode (Grid.dct_coeff (Grid.step_block 4)) = true.
Proof. vm_compute. split; reflexivity. Qed.

(** A block whose coefficient is already on the lattice of its bit is
    written back sample for sample: the coefficient of a uniform block and
    of [ramp_block] is 0, and [embed] stores 0 for the bit 0. *)
Example blocks_left_alone :
  embed_block Grid.dct_coeff Grid.store_coeff (Grid.uniform_block 128) false
  = Grid.uniform_block 128 /\
  embed_block Grid.dct_coeff Grid.store_coeff ramp_block false = ramp_block.
Proof. vm_compute. split; reflexivity. Qed.

(** A black block keeps a 0 and a [step_block 4] keeps a 1: their
    coefficients, 0 and about 13.39, are within [q / 4] of the values 0 and
    14 that [embed] stores, and the samples do not change. *)
Example blocks_that_read_back :
  reads_back Grid.dct_coeff Grid.store_coeff
    [Grid.uniform_block 0; Grid.step_block 4] [false; true] = true /\
  embed_block Grid.dct_coeff Grid.store_coeff (Grid.step_block 4) true
  = Grid.step_block 4.
Proof. vm_compute. split; reflexivity. Qed.

(** A uniform grey block does not keep a 1: the cast to [uint8] turns the
    change asked for, at most 0.46 per sample, into a drop by one of the
    samples where it is negative; the coefficient reads back as about 3.35
    instead of 2 and decodes to 0. *)
Example grey_block_loses_bit :
  embed_block Grid.dct_coeff Grid.store_coeff (Grid.uniform_block 128) true
  = grey_block_with_one /\
  reads_back Grid.dct_coeff Grid.store_coeff [Grid.uniform_block 128] [true] = false /\
  Decode (Grid.dct_coeff grey_block_with_one) = false.
Proof. vm_compute. repeat split; reflexivity. Qed.

End GridFacts.

(** ** The decision regions of the bit codec *)

Module CodecRegions.
Import CodecFacts.

Local Open Scope Q_scope.

Lemma inject_Z_one_of_two (a b : Z) :
  inject_Z a - 1 < inject_Z b -> inject_Z b < inject_Z a + 2 ->
  b = a \/ b = (a + 1)%Z.
Proof.
  unfold Qlt, Qminus, Qplus, Qopp, inject_Z. cbn. intros H1 H2. lia.
Qed.

(** The offset of a coefficient above the multiple of [q] below it. *)
Lemma offset_bounds (c : Q) :
  0 <= c - inject_Z (Qfloor (c / 4)) * 4 /\ c - inject_Z (Qfloor (c / 4)) * 4 < 4.
Proof.
  pose proof (Qfloor_le (c / 4)) as Hlo. pose proof (Qlt_floor (c / 4)) as Hhi.
  rewrite inject_Z_plus in Hhi. change (inject_Z 1) with 1 in Hhi.
  set (F := inject_Z (Qfloor (c / 4))) in *.
  assert (E : c == 4 * (c / 4)) by field.
  set (x := c / 4) in *. lra.
Qed.

(** The two distances [extract] compares, in terms of the offset [r]. *)
Lemma dist_to_zero_offset (c : Q) :
  let r := c - inject_Z (Qfloor (c / 4)) * 4 in
  (r <= 2 /\ Qabs (c - nearest_zero c) == r) \/
  (2 <= r /\ Qabs (c - nearest_zero c) == 4 - r).
Proof.
  cbv zeta. unfold nearest_zero, QUANTIZATION_STEP.
  pose proof (Qfloor_le (c / 4)) as Hlo. pose proof (Qlt_floor (c / 4)) as Hhi.
  rewrite inject_Z_plus in Hhi. change (inject_Z 1) with 1 in Hhi.
  pose proof (round_half_even_bounds (c / 4)) as [B1 B2].
  assert (E : c == 4 * (c / 4)) by field.
  set (x := c / 4) in *.
  destruct (inject_Z_one_of_two (Qfloor x) (round_half_even x)) as [Hn|Hn]; try lra.
  - rewrite Hn in *. set (F := inject_Z (Qfloor x)) in *.
    left. split; [lra|]. rewrite Qabs_pos by lra. reflexivity.
  - rewrite Hn in *. rewrite inject_Z_plus in *. change (inject_Z 1) with 1 in *.
    set (F := inject_Z (Qfloor x)) in *.
    right. split; [lra|]. rewrite Qabs_neg by lra. lra.
Qed.

Lemma dist_to_one_offset (c : Q) :
  let r := c - inject_Z (Qfloor (c / 4)) * 4 in
  Qabs (c - nearest_one c) == Qabs (r - 2).
Proof.
  cbv zeta. unfold nearest_one, QUANTIZATION_STEP.
  pose proof (Qfloor_le (c / 4)) as Hlo. pose proof (Qlt_floor (c / 4)) as Hhi.
  rewrite inject_Z_plus in Hhi. change (inject_Z 1) with 1 in Hhi.
  pose proof (round_half_even_bounds ((c - 4 / 2) / 4)) as [B1 B2].
  assert (E : c == 4 * (c / 4)) by field.
  assert (Ey : (c - 4 / 2) / 4 == c / 4 - (1 # 2)) by field.
  set (y := (c - 4 / 2) / 4) in *. set (x := c / 4) in *.
  setoid_replace (4 / 2) with 2 by reflexivity.
  destruct (inject_Z_one_of_two (Qfloor x - 1) (round_half_even y)) as [Hm|Hm].
  - unfold Z.sub. rewrite inject_Z_plus, inject_Z_opp.
    change (inject_Z 1) with 1. lra.
  - unfold Z.sub. rewrite inject_Z_plus, inject_Z_opp.
    change (inject_Z 1) with 1. lra.
  - rewrite Hm in *. unfold Z.sub in *. rewrite inject_Z_plus, inject_Z_opp in *.
    change (inject_Z 1) with 1 in *.
    set (F := inject_Z (Qfloor x)) in *.
    assert (Hr : c - F * 4 == 0) by lra.
    rewrite (Qabs_pos (c - ((F + - (1)) * 4 + 2))) by lra.
    rewrite (Qabs_neg (c - F * 4 - 2)) by lra. lra.
  - replace (Qfloor x - 1 + 1)%Z with (Qfloor x) in Hm by lia.
    rewrite Hm. apply Qabs_wd. lra.
Qed.

(** [Decode] yields 1 exactly on the open middle half of each cell of the
    0-lattice. *)
Lemma Decode_true_iff_offset (c : Q) :
  let r := c - inject_Z (Qfloor (c / 4)) * 4 in
  Decode c = true <-> 1 < r /\ r < 3.
Proof.
  cbv zeta.
  pose proof (offset_bounds c) as [R0 R4].
  pose proof (dist_to_one_offset c) as D1. cbv zeta in D1.
  pose proof (Decode_false_iff c) as Df.
  destruct (dist_to_zero_offset c) as [[Hr D0]|[Hr D0]]; cbv zeta in Hr, D0;
    rewrite D0, D1 in Df; set (r := c - inject_Z (Qfloor (c / 4)) * 4) in *.
  - rewrite (Qabs_neg (r - 2)) in Df by lra.
    destruct (Decode c); split; intros H; try discriminate; try reflexivity.
    + destruct (Qlt_le_dec 1 r) as [L|L]; [split; lra|].
      assert (false = false -> False); [|tauto].
      intros _. assert (Hd : r <= - (r - 2)) by lra. apply Df in Hd. discriminate.
    + exfalso. assert (Hd : r <= - (r - 2)) by (apply Df; reflexivity). lra.
  - rewrite (Qabs_pos (r - 2)) in Df by lra.
    destruct (Decode c); split; intros H; try discriminate; try reflexivity.
    + destruct (Qlt_le_dec r 3) as [L|L]; [split; lra|].
      assert (Hd : 4 - r <= r - 2) by lra. apply Df in Hd. discriminate.
    + exfalso. assert (Hd : 4 - r <= r - 2) by (apply Df; reflexivity). lra.
Qed.

Lemma between_integers (a b : Z) (x : Q) :
  inject_Z a <= x -> x < inject_Z a + 1 ->
  inject_Z b < x -> x < inject_Z b + 1 -> a = b.
Proof.
  intros H1 H2 H3 H4.
  destruct (inject_Z_one_of_two a b) as [E|E]; [lra|lra|now symmetry|].
  exfalso. rewrite E, inject_Z_plus in H3. change (inject_Z 1) with 1 in H3. lra.
Qed.

(** The same regions without the floor: a coefficient decodes to 1 when it
    lies strictly within [q/4] of an odd multiple of [q/2], and to 0 when it
    lies within [q/4], ends included, of a multiple of [q]. *)
Lemma Decode_true_iff_near_one (c : Q) :
  Decode c = true <-> exists j : Z, 1 < c - inject_Z j * 4 /\ c - inject_Z j * 4 < 3.
Proof.
  rewrite (Decode_true_iff_offset c). cbv zeta. split.
  - intros H. now exists (Qfloor (c / 4)).
  - intros [j [H1 H3]].
    pose proof (Qfloor_le (c / 4)) as Hlo. pose proof (Qlt_floor (c / 4)) as Hhi.
    rewrite inject_Z_plus in Hhi. change (inject_Z 1) with 1 in Hhi.
    assert (E : c == 4 * (c / 4)) by field.
    set (x := c / 4) in *.
    rewrite (between_integers (Qfloor x) j x); [split; assumption|lra..].
Qed.

Lemma Decode_false_iff_near_zero (c : Q) :
  Decode c = false <->
  exists j : Z, -1 <= c - inject_Z j * 4 /\ c - inject_Z j * 4 <= 1.
Proof.
  pose proof (Decode_true_iff_offset c) as Ht. cbv zeta in Ht.
  pose proof (offset_bounds c) as [R0 R4].
  split.
  - intros Hf. set (f := Qfloor (c / 4)) in *.
    destruct (Qlt_le_dec 1 (c - inject_Z f * 4)) as [L|L].
    + destruct (Qlt_le_dec (c - inject_Z f * 4) 3) as [L3|L3].
      * assert (Decode c = true) by (apply Ht; now split). congruence.
      * exists (f + 1)%Z. rewrite inject_Z_plus. change (inject_Z 1) with 1.
        split; lra.
    + exists f. split; lra.
  - intros [j [H1 H2]]. destruct (Decode c) eqn:E; [exfalso|reflexivity].
    apply Decode_true_iff_near_one in E. destruct E as [i [G1 G2]].
    destruct (inject_Z_one_of_two i j) as [Hj|Hj]; try lra.
    + subst j. lra.
    + subst j. rewrite inject_Z_plus in H1, H2. change (inject_Z 1) with 1 in *. lra.
Qed.

(** Decoding depends on the coefficient modulo [q] only. *)
Lemma Decode_periodic (c : Q) (k : Z) : Decode (c + inject_Z k * 4) = Decode c.
Proof.
  destruct (Decode c) eqn:E.
  - apply Decode_true_iff_near_one in E. destruct E as [j [H1 H2]].
    apply Decode_true_iff_near_one. exists (j + k)%Z.
    rewrite inject_Z_plus. split; lra.
  - apply Decode_false_iff_near_zero in E. destruct E as [j [H1 H2]].
    apply Decode_false_iff_near_zero. exists (j + k)%Z.
    rewrite inject_Z_plus. split; lra.
Qed.

(** Noise strictly between [q/4] and [3q/4] flips the embedded bit. *)
Lemma Decode_Encode_flipped (c0 e : Q) (b : bool) :
  1 < Qabs e -> Qabs e < 3 -> Decode (Encode c0 b + e) = negb b.
Proof.
  intros H1 H3. destruct (Encode_on_lattice c0 b) as [k Hk]. rewrite Hk.
  destruct (Qlt_le_dec e 0) as [Hs|Hs].
  - rewrite (Qabs_neg e) in H1, H3 by lra. destruct b; cbn [negb].
    + apply Decode_false_iff_near_zero. exists k.
      setoid_replace (4 / 2) with 2 by reflexivity. split; lra.
    + apply Decode_true_iff_near_one. exists (k - 1)%Z.
      unfold Z.sub. rewrite inject_Z_plus, inject_Z_opp.
      change (inject_Z 1) with 1. split; lra.
  - rewrite (Qabs_pos e) in H1, H3 by lra. destruct b; cbn [negb].
    + apply Decode_false_iff_near_zero. exists (k + 1)%Z.
      rewrite inject_Z_plus. change (inject_Z 1) with 1.
      setoid_replace (4 / 2) with 2 by reflexivity. split; lra.
    + apply Decode_true_iff_near_one. exists k. split; lra.
Qed.

(** Noise of exactly [q/4] decodes to 0 whichever bit was embedded. *)
Lemma Decode_Encode_at_quarter (c0 e : Q) (b : bool) :
  Qabs e == 1 -> Decode (Encode c0 b + e) = false.
Proof.
  intros H1. destruct (Encode_on_lattice c0 b) as [k Hk]. rewrite Hk.
  apply Decode_false_iff_near_zero.
  destruct (Qlt_le_dec e 0) as [Hs|Hs].
  - rewrite (Qabs_neg e) in H1 by lra. destruct b.
    + exists k. setoid_replace (4 / 2) with 2 by reflexivity. split; lra.
    + exists k. split; lra.
  - rewrite (Qabs_pos e) in H1 by lra. destruct b.
    + exists (k + 1)%Z. rewrite inject_Z_plus. change (inject_Z 1) with 1.
      setoid_replace (4 / 2) with 2 by reflexivity. split; lra.
    + exists k. split; lra.
Qed.

(** A coefficient that [Encode] produced is left where it is by [Encode]
    with the same bit. *)
Lemma Encode_idempotent (c0 : Q) (b : bool) :
  Encode (Encode c0 b) b = Encode c0 b.
Proof.
  destruct (Encode_on_lattice c0 b) as [k Hk]. rewrite Hk.
  unfold Encode, QUANTIZATION_STEP. destruct b; cbn [negb].
  - rewrite (round_half_even_near k); [reflexivity|].
    setoid_replace ((inject_Z k * 4 + 4 / 2 - 4 / 2) / 4 - inject_Z k) with 0 by field.
    reflexivity.
  - rewrite (round_half_even_near k); [reflexivity|].
    setoid_replace (inject_Z k * 4 / 4 - inject_Z k) with 0 by field.
    reflexivity.
Qed.

(** [round] returns an integer that is as near as any other. *)
Lemma round_half_even_nearest (x : Q) (j : Z) :
  Qabs (x - inject_Z (round_half_even x)) <= Qabs (x - inject_Z j).
Proof.
  pose proof (round_half_even_bounds x) as [B1 B2].
  set (n := round_half_even x) in *.
  destruct (Z.lt_trichotomy j n) as [L|[E|L]].
  - assert (H : inject_Z j + 1 <= inject_Z n).
    { change 1 with (inject_Z 1). rewrite <- inject_Z_plus, <- Zle_Qle. lia. }
    rewrite (Qabs_pos (x - inject_Z j)) by lra.
    apply Qabs_Qle_condition. split; lra.
  - subst j. apply Qle_refl.
  - assert (H : inject_Z n + 1 <= inject_Z j).
    { change 1 with (inject_Z 1). rewrite <- inject_Z_plus, <- Zle_Qle. lia. }
    rewrite (Qabs_neg (x - inject_Z j)) by lra.
    apply Qabs_Qle_condition. split; lra.
Qed.

(** [Encode] picks a nearest point of the lattice of its bit. *)
Lemma Encode_nearest_point (c0 : Q) (b : bool) (j : Z) :
  Qabs (c0 - Encode c0 b)
  <= Qabs (c0 - (inject_Z j * 4 + (if b then 2 else 0))).
Proof.
  unfold Encode, QUANTIZATION_STEP. destruct b; cbn [negb].
  - pose proof (round_half_even_nearest ((c0 - 4 / 2) / 4) j) as H.
    set (n := inject_Z (round_half_even ((c0 - 4 / 2) / 4))) in *.
    assert (E1 : c0 - (n * 4 + 4 / 2) == 4 * ((c0 - 4 / 2) / 4 - n)) by field.
    assert (E2 : c0 - (inject_Z j * 4 + 2) == 4 * ((c0 - 4 / 2) / 4 - inject_Z j))
      by field.
    rewrite E1, E2, !Qabs_Qmult. change (Qabs 4) with 4.
    set (a := Qabs _) in *. set (a' := Qabs _) in *. lra.
  - pose proof (round_half_even_nearest (c0 / 4) j) as H.
    set (n := inject_Z (round_half_even (c0 / 4))) in *.
    assert (E1 : c0 - n * 4 == 4 * (c0 / 4 - n)) by field.
    assert (E2 : c0 - (inject_Z j * 4 + 0) == 4 * (c0 / 4 - inject_Z j)) by field.
    rewrite E1, E2, !Qabs_Qmult. change (Qabs 4) with 4.
    set (a := Qabs _) in *. set (a' := Qabs _) in *. lra.
Qed.

End CodecRegions.

(** ** More on the framing codec *)

Module FramingMore.
Import BitsFacts SliceFacts FramingFacts.

Lemma bytes_of_bits_short (s : list bool) :
  (0 < length s < 8)%nat -> length (bytes_of_bits s) = 1%nat.
Proof.
  intros H.
  destruct s as [|b0 [|b1 [|b2 [|b3 [|b4 [|b5 [|b6 [|b7 rest]]]]]]]];
    cbn in H; try lia; reflexivity.
Qed.

(** Every eight bits make a byte, and so does a shorter rest. *)
Lemma bytes_of_bits_length (s : list bool) :
  length (bytes_of_bits s) = ((length s + 7) / 8)%nat.
Proof.
  pose proof (Nat.div_mod_eq (length s) 8) as Hdm.
  pose proof (Nat.mod_upper_bound (length s) 8) as Hub.
  set (k := (length s / 8)%nat) in *. set (r := (length s mod 8)%nat) in *.
  assert (Hk : length (firstn (8 * k) s) = (8 * k)%nat)
    by (rewrite length_firstn; lia).
  assert (Hr : length (skipn (8 * k) s) = r)
    by (rewrite length_skipn; lia).
  rewrite <- (firstn_skipn (8 * k) s) at 1.
  rewrite (bytes_of_bits_app k _ _ Hk), length_app,
    (bytes_of_bits_length_exact k _ Hk).
  destruct (Nat.eq_dec r 0) as [E|E].
  - rewrite E in Hr. apply length_zero_iff_nil in Hr. rewrite Hr. cbn [bytes_of_bits chunks8 map length].
    rewrite Nat.add_0_r. apply (Nat.div_unique _ 8 k 7); lia.
  - rewrite bytes_of_bits_short by lia.
    apply (Nat.div_unique _ 8 (k + 1) (r - 1)); lia.
Qed.

(** The first [k] bytes depend on the first [8 k] bits only. *)
Lemma bytes_of_bits_firstn (k : nat) (s : list bool) :
  (8 * k <= length s)%nat ->
  firstn k (bytes_of_bits s) = bytes_of_bits (firstn (8 * k) s).
Proof.
  intros H.
  assert (Hk : length (firstn (8 * k) s) = (8 * k)%nat)
    by (rewrite length_firstn; lia).
  rewrite <- (firstn_skipn (8 * k) s) at 1.
  rewrite (bytes_of_bits_app k _ _ Hk).
  apply firstn_app_left. symmetry. now apply bytes_of_bits_length_exact.
Qed.

(** [_bitstream_to_payload] by cases on the rebuilt bytes. *)
Lemma parse_cases (s : list bool) :
  let ba := bytes_of_bits s in
  let L := N.to_nat (from_bytes_big (firstn 4 (skipn 11 ba))) in
  ((length ba < 15)%nat /\ _bitstream_to_payload s = Failed IncompleteHeader) \/
  ((15 <= length ba)%nat /\ firstn 11 ba <> MARKER /\
   _bitstream_to_payload s = Failed MarkerMismatch) \/
  ((15 <= length ba)%nat /\ firstn 11 ba = MARKER /\ (length ba < 15 + L)%nat /\
   _bitstream_to_payload s = Failed TruncatedPayload) \/
  ((15 <= length ba)%nat /\ firstn 11 ba = MARKER /\ (15 + L <= length ba)%nat /\
   _bitstream_to_payload s = Written (firstn L (skipn 15 ba))).
Proof.
  cbv zeta. unfold _bitstream_to_payload.
  change (length MARKER) with 11%nat. change (11 + 4)%nat with 15%nat.
  change (15 - 11)%nat with 4%nat.
  set (ba := bytes_of_bits s).
  destruct (Nat.ltb_spec (length ba) 15) as [H15|H15]; [left; now split|right].
  destruct (bytes_neq (firstn 11 ba) MARKER) eqn:Hm.
  - left. apply bytes_neq_true in Hm. now repeat split.
  - right. apply bytes_neq_false in Hm.
    set (L := N.to_nat (from_bytes_big (firstn 4 (skipn 11 ba)))).
    rewrite length_firstn, length_skipn.
    destruct (Nat.eqb_spec (Nat.min L (length ba - 15)) L) as [E|E]; cbn [negb].
    + right. repeat split; trivial. lia.
    + left. repeat split; trivial. lia.
Qed.

(** A payload is only ever written from a stream that is framed: marker,
    the length of what is written, then the payload itself. *)
Lemma parse_written_inv (s : list bool) (p : list byte) :
  _bitstream_to_payload s = Written p ->
  firstn (length MARKER * 8) s = bits_of_bytes MARKER /\
  exists length_bytes tail,
    bytes_of_bits s = MARKER ++ length_bytes ++ p ++ tail /\
    length length_bytes = 4%nat /\
    from_bytes_big length_bytes = N.of_nat (length p).
Proof.
  intros H.
  destruct (parse_cases s) as [[H1 H2]|[(H1 & _ & H2)|[(H1 & _ & _ & H2)|(H1 & Hm & HL & H2)]]];
    try congruence.
  cbv zeta in *.
  set (ba := bytes_of_bits s) in *.
  set (L := N.to_nat (from_bytes_big (firstn 4 (skipn 11 ba)))) in *.
  assert (Hp : p = firstn L (skipn 15 ba)) by congruence. subst p. clear H H2.
  pose proof (bytes_of_bits_length s) as Hl. fold ba in Hl.
  pose proof (Nat.div_mod_eq (length s + 7) 8) as Hdm.
  pose proof (Nat.mod_upper_bound (length s + 7) 8) as Hub.
  split.
  - apply marker_bytes_iff_bits; [|exact Hm].
    change (length MARKER * 8)%nat with 88%nat. lia.
  - exists (firstn 4 (skipn 11 ba)), (skipn L (skipn 15 ba)). split; [|split].
    + rewrite <- Hm at 1. change (length MARKER) with 11%nat.
      rewrite (firstn_skipn L (skipn 15 ba)).
      replace (skipn 15 ba) with (skipn 4 (skipn 11 ba))
        by (rewrite skipn_skipn; reflexivity).
      now rewrite !firstn_skipn.
    + rewrite length_firstn, length_skipn. lia.
    + rewrite length_firstn, length_skipn.
      replace (Nat.min L (length ba - 15)) with L by lia.
      unfold L. now rewrite N2Nat.id.
Qed.

(** No serialised payload is the start of another one. *)
Lemma serialized_prefix_free (p1 p2 : list byte) (b1 extra : list bool) :
  _payload_to_bitstream p1 = Some b1 ->
  _payload_to_bitstream p2 = Some (b1 ++ extra) ->
  p1 = p2 /\ extra = [].
Proof.
  intros H1 H2.
  pose proof (parse_serialized p1 b1 extra H1) as P1.
  pose proof (parse_serialized p2 (b1 ++ extra) [] H2) as P2.
  rewrite app_nil_r in P2.
  assert (E : p1 = p2) by congruence. subst p2. split; [reflexivity|].
  assert (Hb : b1 ++ extra = b1) by congruence.
  apply (f_equal (@length bool)) in Hb. rewrite length_app in Hb.
  apply length_zero_iff_nil. lia.
Qed.

End FramingMore.

(** ** The extractor on any frame sequence *)

Module ExtractCases.
Import BitsFacts SliceFacts FramingFacts ExtractFacts FramingMore.

Lemma skipn_cons_inv (A : Type) (d x : A) (l r : list A) : forall k,
  skipn k l = x :: r ->
  (k < length l)%nat /\ nth k l d = x /\ skipn (S k) l = r.
Proof.
  induction l as [|y l IH]; intros k H.
  - rewrite skipn_nil in H. discriminate.
  - destruct k as [|k].
    + cbn in H. injection H as -> ->. cbn. repeat split. lia.
    + cbn [skipn] in H. destruct (IH k H) as (H1 & H2 & H3).
      cbn [length nth]. repeat split; trivial. lia.
Qed.

Lemma declared_bits_ge (D : list bool) :
  (N.of_nat header_len_bits <= declared_bits D)%N.
Proof. unfold declared_bits. lia. Qed.

Lemma stopped_ok_mono (D : list bool) (n m : nat) (st : extract_state) :
  (n <= m)%nat -> stopped_ok D n st -> stopped_ok D m st.
Proof.
  intros Hnm (H1 & H2 & H3 & H4 & H5 & extra & H6 & H7).
  repeat split; trivial. exists extra. split; [exact H6|lia].
Qed.

Lemma stopped_failed_mono (D : list bool) (n m : nat) (st : extract_state) :
  (n <= m)%nat -> stopped_failed D n st -> stopped_failed D m st.
Proof.
  intros Hnm (H1 & H2 & H3 & H4 & extra & H6 & H7).
  repeat split; trivial. exists extra. split; [exact H6|lia].
Qed.

Lemma running_goes_on (D : list bool) (k : nat) (st : extract_state) :
  running D k st -> extraction_failed st || enough_bits st = false.
Proof.
  intros (Hb & Hk & Hf & Ht & Hh). rewrite Hf. cbn [orb].
  unfold enough_bits. rewrite Ht.
  destruct (Nat.ltb_spec k header_len_bits) as [L|L]; [reflexivity|].
  destruct (Hh L) as [_ Hlt].
  rewrite Hb, length_firstn.
  replace (declared_bits D <=? N.of_nat (Nat.min k (length D)))%N with false;
    [apply andb_false_r|].
  symmetry. apply N.leb_gt. lia.
Qed.

Lemma stopped_ok_stops (D : list bool) (n : nat) (st : extract_state) :
  stopped_ok D n st -> extraction_failed st || enough_bits st = true.
Proof.
  intros (H1 & H2 & H3 & H4 & H5 & extra & H6 & H7).
  apply orb_true_iff. right. unfold enough_bits. rewrite H5, H6.
  pose proof (declared_bits_ge D) as Hge. rewrite header_len_bits_value in *.
  rewrite length_app, length_firstn.
  apply andb_true_iff. split.
  - apply negb_true_iff, N.eqb_neq. lia.
  - apply N.leb_le. lia.
Qed.

Lemma stopped_failed_stops (D : list bool) (n : nat) (st : extract_state) :
  stopped_failed D n st -> extraction_failed st || enough_bits st = true.
Proof. intros (_ & _ & H3 & _). now rewrite H3. Qed.

Section OneStream.

Variable block : Type.
Variable dct_coeff : block -> Q.
Variable D : list bool.

(** One block while no [break] has been taken. *)
Lemma extract_block_running (blk : block) (k : nat) (st : extract_state) :
  running D k st ->
  (k < length D)%nat ->
  Decode (dct_coeff blk) = nth k D false ->
  (running D (S k) (fst (extract_block dct_coeff blk st)) /\
   snd (extract_block dct_coeff blk st) = false) \/
  (stopped_ok D 0 (fst (extract_block dct_coeff blk st)) /\
   snd (extract_block dct_coeff blk st) = true) \/
  (stopped_failed D 0 (fst (extract_block dct_coeff blk st)) /\
   snd (extract_block dct_coeff blk st) = true).
Proof.
  intros (Hb & Hk & Hf & Ht & Hh) Hlt Hd.
  pose proof (declared_bits_ge D) as Hge.
  unfold extract_block.
  rewrite Hb, Hd, <- (firstn_snoc_nth _ false D k Hlt), Ht.
  assert (Hlen : length (firstn (S k) D) = S k) by (rewrite length_firstn; lia).
  rewrite Hlen.
  destruct (Nat.ltb_spec k header_len_bits) as [L|L].
  - destruct (Nat.leb_spec header_len_bits (S k)) as [Hh1|Hh1].
    + assert (Hk120 : S k = header_len_bits) by lia. rewrite Hk120 in *.
      destruct (bytes_neq _ MARKER) eqn:Hm.
      * right. right. cbn [fst snd]. split; [|reflexivity].
        unfold stopped_failed. cbn [extracted_bits total_bits_to_extract extraction_failed].
        repeat split; trivial.
        -- lia.
        -- unfold header_marker_ok. now rewrite Hm.
        -- exists []. rewrite app_nil_r. split; [reflexivity|cbn; lia].
      * fold (declared_bits D). cbn [fst snd].
        assert (Hok : header_marker_ok D = true)
          by (unfold header_marker_ok; now rewrite Hm).
        unfold enough_bits.
        cbn [extracted_bits total_bits_to_extract extraction_failed].
        rewrite Hlen.
        destruct (N.leb_spec (declared_bits D) (N.of_nat header_len_bits)) as [Le|Le].
        -- right. left. split.
           ++ unfold stopped_ok.
              cbn [extracted_bits total_bits_to_extract extraction_failed].
              repeat split; trivial; try lia.
              exists []. rewrite app_nil_r.
              replace (N.to_nat (declared_bits D)) with header_len_bits by lia.
              split; [reflexivity|cbn; lia].
           ++ apply andb_true_iff. split; [|reflexivity].
              apply negb_true_iff, N.eqb_neq. rewrite header_len_bits_value in *. lia.
        -- left. split; [|apply andb_false_r].
           unfold running.
           cbn [extracted_bits total_bits_to_extract extraction_failed].
           rewrite Nat.ltb_irrefl. repeat split; trivial. lia.
    + left. cbn [fst snd]. split.
      * unfold running.
        cbn [extracted_bits total_bits_to_extract extraction_failed].
        replace (S k <? header_len_bits)%nat with true
          by (symmetry; apply Nat.ltb_lt; lia).
        repeat split; trivial; lia.
      * reflexivity.
  - destruct (Hh L) as [Hok Hkt]. cbn [fst snd].
    unfold enough_bits.
    cbn [extracted_bits total_bits_to_extract extraction_failed].
    rewrite Hlen.
    destruct (N.leb_spec (declared_bits D) (N.of_nat (S k))) as [Le|Le].
    + right. left. split.
      * unfold stopped_ok.
        cbn [extracted_bits total_bits_to_extract extraction_failed].
        repeat split; trivial; try lia.
        exists []. rewrite app_nil_r.
        replace (N.to_nat (declared_bits D)) with (S k) by lia.
        split; [reflexivity|cbn; lia].
      * apply andb_true_iff. split; [|reflexivity].
        apply negb_true_iff, N.eqb_neq. lia.
    + left. split; [|apply andb_false_r].
      unfold running.
      cbn [extracted_bits total_bits_to_extract extraction_failed].
      replace (S k <? header_len_bits)%nat with false
        by (symmetry; apply Nat.ltb_ge; lia).
      repeat split; trivial; lia.
Qed.

(** One block after the required bits are in. *)
Lemma extract_block_stopped_ok (blk : block) (n : nat) (st : extract_state) :
  stopped_ok D n st ->
  stopped_ok D (S n) (fst (extract_block dct_coeff blk st)) /\
  snd (extract_block dct_coeff blk st) = true.
Proof.
  intros (H1 & H2 & H3 & H4 & H5 & extra & H6 & H7).
  pose proof (declared_bits_ge D) as Hge.
  unfold extract_block. rewrite H5. cbn [fst snd]. split.
  - unfold stopped_ok.
    cbn [extracted_bits total_bits_to_extract extraction_failed].
    repeat split; trivial.
    exists (extra ++ [Decode (dct_coeff blk)]). rewrite H6, <- app_assoc.
    split; [reflexivity|]. rewrite length_app. cbn. lia.
  - unfold enough_bits. cbn [total_bits_to_extract extracted_bits].
    rewrite H6, !length_app, length_firstn. rewrite header_len_bits_value in *.
    apply andb_true_iff. split.
    + apply negb_true_iff, N.eqb_neq. lia.
    + apply N.leb_le. lia.
Qed.

(** One block after the marker was rejected: it is rejected again. *)
Lemma extract_block_stopped_failed (blk : block) (n : nat) (st : extract_state) :
  stopped_failed D n st ->
  stopped_failed D (S n) (fst (extract_block dct_coeff blk st)) /\
  snd (extract_block dct_coeff blk st) = true.
Proof.
  intros (H1 & H2 & H3 & H4 & extra & H6 & H7).
  unfold extract_block. rewrite H4, H6.
  set (bits := (firstn header_len_bits D ++ extra) ++ [Decode (dct_coeff blk)]).
  assert (Hl : (header_len_bits <=? length bits)%nat = true).
  { apply Nat.leb_le. unfold bits. rewrite !length_app, length_firstn. lia. }
  rewrite Hl.
  assert (Hm : bytes_neq (firstn (length MARKER) (bytes_of_bits bits)) MARKER = true).
  { unfold header_marker_ok in H2. apply negb_false_iff in H2.
    rewrite <- H2. f_equal.
    change (length MARKER) with 11%nat.
    assert (Hf : length (firstn header_len_bits D) = 120%nat)
      by (rewrite length_firstn, header_len_bits_value in *; lia).
    rewrite (bytes_of_bits_firstn 11 bits)
      by (unfold bits; rewrite !length_app, Hf; lia).
    rewrite (bytes_of_bits_firstn 11 (firstn header_len_bits D)) by (rewrite Hf; lia).
    f_equal. unfold bits. rewrite <- app_assoc.
    apply firstn_app_short. rewrite Hf. lia. }
  rewrite Hm. cbn [fst snd]. split; [|reflexivity].
  unfold stopped_failed.
  cbn [extracted_bits total_bits_to_extract extraction_failed].
  repeat split; trivial.
  exists (extra ++ [Decode (dct_coeff blk)]). unfold bits. rewrite <- app_assoc.
  split; [reflexivity|]. rewrite length_app. cbn. lia.
Qed.

(** The loop over a band. *)
Lemma extract_band_stopped_ok (row : band block) (n : nat) (st : extract_state) :
  stopped_ok D n st -> stopped_ok D (S n) (extract_band dct_coeff row st).
Proof.
  intros H. destruct row as [|blk row].
  - apply (stopped_ok_mono D n); [lia|exact H].
  - cbn [extract_band]. destruct (extract_block_stopped_ok blk n st H) as [H1 H2].
    destruct (extract_block dct_coeff blk st) as [st' brk].
    cbn [fst snd] in H1, H2. now rewrite H2.
Qed.

Lemma extract_band_stopped_failed (row : band block) (n : nat) (st : extract_state) :
  stopped_failed D n st -> stopped_failed D (S n) (extract_band dct_coeff row st).
Proof.
  intros H. destruct row as [|blk row].
  - apply (stopped_failed_mono D n); [lia|exact H].
  - cbn [extract_band]. destruct (extract_block_stopped_failed blk n st H) as [H1 H2].
    destruct (extract_block dct_coeff blk st) as [st' brk].
    cbn [fst snd] in H1, H2. now rewrite H2.
Qed.

Lemma extract_band_running (row : band block) : forall k st rest,
  running D k st ->
  skipn k D = decoded dct_coeff row ++ rest ->
  running D (k + length row) (extract_band dct_coeff row st) \/
  stopped_ok D 0 (extract_band dct_coeff row st) \/
  stopped_failed D 0 (extract_band dct_coeff row st).
Proof.
  induction row as [|blk row IH]; intros k st rest Hr Hs.
  - left. cbn. now rewrite Nat.add_0_r.
  - cbn [decoded map app] in Hs. fold (decoded dct_coeff row) in Hs.
    destruct (skipn_cons_inv _ false _ _ _ _ Hs) as (Hlt & Hnth & Hs').
    cbn [extract_band].
    destruct (extract_block_running blk k st Hr Hlt (eq_sym Hnth))
      as [[L1 L2]|[[L1 L2]|[L1 L2]]];
      destruct (extract_block dct_coeff blk st) as [st' brk];
      cbn [fst snd] in L1, L2; subst brk.
    + cbn [length]. rewrite Nat.add_succ_r. apply (IH (S k) st' rest L1 Hs').
    + right. left. exact L1.
    + right. right. exact L1.
Qed.

(** The loop over the bands of a frame. *)
Lemma extract_bands_stopped_ok (rows : frame block) (n : nat) (st : extract_state) :
  stopped_ok D n st -> stopped_ok D (S n) (extract_bands dct_coeff rows st).
Proof.
  intros H. destruct rows as [|row rows].
  - apply (stopped_ok_mono D n); [lia|exact H].
  - cbn [extract_bands].
    pose proof (extract_band_stopped_ok row n st H) as H1.
    now rewrite (stopped_ok_stops _ _ _ H1).
Qed.

Lemma extract_bands_stopped_failed (rows : frame block) (n : nat)
    (st : extract_state) :
  stopped_failed D n st -> stopped_failed D (S n) (extract_bands dct_coeff rows st).
Proof.
  intros H. destruct rows as [|row rows].
  - apply (stopped_failed_mono D n); [lia|exact H].
  - cbn [extract_bands].
    pose proof (extract_band_stopped_failed row n st H) as H1.
    now rewrite (stopped_failed_stops _ _ _ H1).
Qed.

Lemma extract_bands_running (rows : frame block) : forall k st rest,
  running D k st ->
  skipn k D = decoded dct_coeff (concat rows) ++ rest ->
  running D (k + length (concat rows)) (extract_bands dct_coeff rows st) \/
  stopped_ok D 0 (extract_bands dct_coeff rows st) \/
  stopped_failed D 0 (extract_bands dct_coeff rows st).
Proof.
  induction rows as [|row rows IH]; intros k st rest Hr Hs.
  - left. cbn. now rewrite Nat.add_0_r.
  - cbn [concat] in *. unfold decoded in Hs. rewrite map_app, <- app_assoc in Hs.
    fold (decoded dct_coeff row) in Hs. fold (decoded dct_coeff (concat rows)) in Hs.
    cbn [extract_bands]. rewrite length_app.
    destruct (extract_band_running row k st _ Hr Hs) as [L|[L|L]].
    + rewrite (running_goes_on _ _ _ L).
      assert (Hs' : skipn (k + length row) D
                    = decoded dct_coeff (concat rows) ++ rest).
      { rewrite Nat.add_comm, <- skipn_skipn, Hs.
        apply skipn_app_left. unfold decoded. now rewrite length_map. }
      rewrite Nat.add_assoc. apply (IH _ _ rest L Hs').
    + rewrite (stopped_ok_stops _ _ _ L). right. left. exact L.
    + rewrite (stopped_failed_stops _ _ _ L). right. right. exact L.
Qed.

(** The loop over the frames. *)
Lemma extract_frames_stopped_ok (frames : list (frame block)) : forall n st,
  stopped_ok D n st ->
  stopped_ok D (n + length frames) (extract_frames dct_coeff frames st).
Proof.
  induction frames as [|f frames IH]; intros n st H.
  - cbn. now rewrite Nat.add_0_r.
  - cbn [extract_frames length]. rewrite Nat.add_succ_r.
    apply (IH (S n)), extract_bands_stopped_ok, H.
Qed.

Lemma extract_frames_stopped_failed (frames : list (frame block)) : forall n st,
  stopped_failed D n st ->
  stopped_failed D (n + length frames) (extract_frames dct_coeff frames st).
Proof.
  induction frames as [|f frames IH]; intros n st H.
  - cbn. now rewrite Nat.add_0_r.
  - cbn [extract_frames length]. rewrite Nat.add_succ_r.
    apply (IH (S n)), extract_bands_stopped_failed, H.
Qed.

Lemma extract_frames_running (frames : list (frame block)) : forall k st rest,
  running D k st ->
  skipn k D = decoded dct_coeff (blocks_of frames) ++ rest ->
  running D (k + length (blocks_of frames)) (extract_frames dct_coeff frames st) \/
  stopped_ok D (pred (length frames)) (extract_frames dct_coeff frames st) \/
  stopped_failed D (pred (length frames)) (extract_frames dct_coeff frames st).
Proof.
  induction frames as [|f frames IH]; intros k st rest Hr Hs.
  - left. cbn. now rewrite Nat.add_0_r.
  - unfold blocks_of in *. cbn [flat_map] in *.
    change (blocks_of_frame f) with (concat f) in *.
    unfold decoded in Hs. rewrite map_app, <- app_assoc in Hs.
    fold (decoded dct_coeff (concat f)) in Hs.
    fold (decoded dct_coeff (flat_map blocks_of_frame frames)) in Hs.
    cbn [extract_frames length pred]. rewrite length_app.
    destruct (extract_bands_running f k st _ Hr Hs) as [L|[L|L]].
    + assert (Hs' : skipn (k + length (concat f)) D
                    = decoded dct_coeff (flat_map blocks_of_frame frames) ++ rest).
      { rewrite Nat.add_comm, <- skipn_skipn, Hs.
        apply skipn_app_left. unfold decoded. now rewrite length_map. }
      rewrite Nat.add_assoc.
      destruct (IH _ _ rest L Hs') as [M|[M|M]].
      * now left.
      * right. left. apply (stopped_ok_mono D (pred (length frames))); [lia|exact M].
      * right. right.
        apply (stopped_failed_mono D (pred (length frames))); [lia|exact M].
    + right. left. apply (extract_frames_stopped_ok frames 0 _ L).
    + right. right. apply (extract_frames_stopped_failed frames 0 _ L).
Qed.

End OneStream.

(** How a run of [extract] ends, in terms of the bits [D] its blocks decode
    to: all blocks read and no [break] taken; or the required bits read and
    at most one more per later frame; or the marker rejected and at most
    one bit more per later frame. *)
Lemma extract_ends (block : Type) (dct_coeff : block -> Q)
    (frames : list (frame block)) :
  let D := decoded dct_coeff (blocks_of frames) in
  let st := fst (extract dct_coeff frames) in
  running D (length D) st \/
  stopped_ok D (pred (length frames)) st \/
  stopped_failed D (pred (length frames)) st.
Proof.
  cbv zeta. unfold extract. cbn [fst].
  set (D := decoded dct_coeff (blocks_of frames)).
  set (st0 := {| extracted_bits := []; total_bits_to_extract := None;
                 extraction_failed := false |}).
  assert (H0 : running D 0 st0).
  { unfold running, st0. cbn [extracted_bits total_bits_to_extract extraction_failed].
    rewrite header_len_bits_value. cbn. repeat split; trivial; lia. }
  assert (Hs : skipn 0 D = decoded dct_coeff (blocks_of frames) ++ [])
    by (rewrite app_nil_r; reflexivity).
  destruct (extract_frames_running block dct_coeff D frames 0 st0 [] H0 Hs)
    as [L|[L|L]].
  - left. cbn [Nat.add] in L.
    replace (length D) with (length (blocks_of frames))
      by (unfold D, decoded; now rewrite length_map).
    exact L.
  - right. left. exact L.
  - right. right. exact L.
Qed.

End ExtractCases.

(** ** The outcome of the extractor, by cases on the decoded bits *)

Module ExtractOutcome.
Import BitsFacts SliceFacts FramingFacts ExtractFacts FramingMore ExtractCases.

Lemma parse_incomplete_iff (s : list bool) :
  _bitstream_to_payload s = Failed IncompleteHeader <-> (length s <= 112)%nat.
Proof.
  pose proof (bytes_of_bits_length s) as Hl.
  pose proof (Nat.div_mod_eq (length s + 7) 8) as Hdm.
  pose proof (Nat.mod_upper_bound (length s + 7) 8) as Hub.
  destruct (parse_cases s) as [[H1 H2]|[(H1 & _ & H2)|[(H1 & _ & _ & H2)|(H1 & _ & _ & H2)]]];
    rewrite H2; split; intros H; try discriminate; try reflexivity; lia.
Qed.

Lemma firstn_plus (A : Type) (a b : nat) (l : list A) :
  firstn (a + b) l = firstn a l ++ firstn b (skipn a l).
Proof.
  revert l. induction a as [|a IH]; intros l; [reflexivity|].
  destruct l as [|x l]; [now rewrite !firstn_nil|].
  cbn [Nat.add firstn skipn app]. now rewrite IH.
Qed.

(** The header bits fix what [extract] derives from them. *)
Lemma header_of_stream (D : list bool) (length_bytes : list byte) :
  firstn header_len_bits D = bits_of_bytes (MARKER ++ length_bytes) ->
  length length_bytes = 4%nat ->
  (header_len_bits <= length D)%nat /\
  header_marker_ok D = true /\
  declared_bits D = (120 + 8 * from_bytes_big length_bytes)%N.
Proof.
  intros E H4.
  assert (Hb : bytes_of_bits (firstn header_len_bits D) = MARKER ++ length_bytes).
  { rewrite E, <- (app_nil_r (bits_of_bytes _)), bytes_of_bits_of_bytes.
    apply app_nil_r. }
  split; [|split].
  - assert (Hl : length (firstn header_len_bits D) = 120%nat).
    { rewrite E, bits_of_bytes_length, length_app, H4. reflexivity. }
    rewrite length_firstn, header_len_bits_value in Hl.
    rewrite header_len_bits_value. lia.
  - unfold header_marker_ok. rewrite Hb.
    rewrite (firstn_app_left _ MARKER length_bytes (length MARKER) eq_refl).
    apply negb_true_iff. now apply bytes_neq_false.
  - unfold declared_bits. rewrite Hb.
    rewrite (skipn_app_left _ MARKER length_bytes (length MARKER) eq_refl).
    rewrite (@firstn_all2 _ 4 length_bytes) by (rewrite H4; lia).
    rewrite header_len_bits_value. lia.
Qed.

Lemma header_marker_wrong (D : list bool) :
  (header_len_bits <= length D)%nat ->
  firstn (length MARKER * 8) D <> bits_of_bytes MARKER ->
  header_marker_ok D = false.
Proof.
  intros Hlen Hne. rewrite header_len_bits_value in Hlen.
  unfold header_marker_ok. apply negb_false_iff, bytes_neq_true.
  intros E. apply Hne. apply marker_bytes_iff_bits in E.
  - rewrite firstn_firstn in E. exact E.
  - rewrite length_firstn, header_len_bits_value.
    change (length MARKER * 8)%nat with 88%nat. lia.
Qed.

(** A stream whose rebuilt bytes start with marker and length. *)
Lemma bytes_of_headed_stream (D : list bool) (length_bytes : list byte) :
  firstn header_len_bits D = bits_of_bytes (MARKER ++ length_bytes) ->
  length length_bytes = 4%nat ->
  bytes_of_bits D = MARKER ++ length_bytes ++ skipn 15 (bytes_of_bits D).
Proof.
  intros E H4.
  destruct (header_of_stream D length_bytes E H4) as (Hlen & _ & _).
  rewrite header_len_bits_value in *.
  rewrite <- (firstn_skipn 15 (bytes_of_bits D)) at 1.
  rewrite (bytes_of_bits_firstn 15 D) by lia.
  change (8 * 15)%nat with 120%nat.
  rewrite E, <- (app_nil_r (bits_of_bytes _)), bytes_of_bits_of_bytes, app_nil_r.
  now rewrite <- app_assoc.
Qed.

Lemma state_eta (st : extract_state) (bits : list bool) (total : option N)
    (failed : bool) :
  extracted_bits st = bits -> total_bits_to_extract st = total ->
  extraction_failed st = failed ->
  st = {| extracted_bits := bits; total_bits_to_extract := total;
          extraction_failed := failed |}.
Proof. destruct st. cbn. now intros -> -> ->. Qed.

Section AnyCarrier.

Variable block : Type.
Variable dct_coeff : block -> Q.

(** Fewer blocks than header bits: every block is read, nothing stops the
    scan, and the accumulator goes to [_bitstream_to_payload]. *)
Lemma extract_short (frames : list (frame block)) :
  (capacity frames < header_len_bits)%nat ->
  extract dct_coeff frames =
    ({| extracted_bits := decoded dct_coeff (blocks_of frames);
        total_bits_to_extract := None;
        extraction_failed := false |},
     Some (_bitstream_to_payload (decoded dct_coeff (blocks_of frames)))).
Proof.
  intros Hcap.
  pose proof (extract_ends block dct_coeff frames) as H. cbv zeta in H.
  set (D := decoded dct_coeff (blocks_of frames)) in *.
  assert (HD : length D = capacity frames)
    by (unfold D, decoded, capacity; now rewrite length_map).
  destruct H as [(Hb & _ & Hf & Ht & _)|[(H1 & _)|(H1 & _)]]; try lia.
  rewrite firstn_all in Hb.
  replace (length D <? header_len_bits)%nat with true in Ht
    by (symmetry; apply Nat.ltb_lt; lia).
  pose proof (state_eta _ _ _ _ Hb Ht Hf) as Hst.
  unfold extract in *. cbn [fst] in Hst. rewrite Hst. reflexivity.
Qed.

(** At least [header_len_bits] blocks and a wrong marker: the run is marked
    as failed and [_bitstream_to_payload] is not called. *)
Lemma extract_wrong_marker (frames : list (frame block)) :
  let D := decoded dct_coeff (blocks_of frames) in
  let st := fst (extract dct_coeff frames) in
  (header_len_bits <= capacity frames)%nat ->
  firstn (length MARKER * 8) D <> bits_of_bytes MARKER ->
  extraction_failed st = true /\
  total_bits_to_extract st = None /\
  firstn header_len_bits (extracted_bits st) = firstn header_len_bits D /\
  (length (extracted_bits st) <= header_len_bits + pred (length frames))%nat /\
  snd (extract dct_coeff frames) = None.
Proof.
  cbv zeta. intros Hcap Hne.
  pose proof (extract_ends block dct_coeff frames) as H. cbv zeta in H.
  set (D := decoded dct_coeff (blocks_of frames)) in *.
  assert (HD : length D = capacity frames)
    by (unfold D, decoded, capacity; now rewrite length_map).
  assert (Hbad : header_marker_ok D = false)
    by (apply header_marker_wrong; [lia|exact Hne]).
  destruct H as [(_ & _ & _ & _ & Hh)|[(_ & H2 & _)|(H1 & _ & H3 & H4 & extra & H6 & H7)]].
  - destruct Hh as [Hok _]; [lia|congruence].
  - congruence.
  - assert (Hf : length (firstn header_len_bits D) = header_len_bits)
      by (rewrite length_firstn; lia).
    repeat split; trivial.
    + rewrite H6. now apply firstn_app_left.
    + rewrite H6, length_app, Hf. lia.
    + unfold extract in *. cbn [fst snd] in *. now rewrite H3.
Qed.

(** A valid header that asks for more bits than there are blocks: every
    block is read and the accumulator goes to [_bitstream_to_payload]. *)
Lemma extract_truncated (frames : list (frame block)) (length_bytes : list byte) :
  let D := decoded dct_coeff (blocks_of frames) in
  firstn header_len_bits D = bits_of_bytes (MARKER ++ length_bytes) ->
  length length_bytes = 4%nat ->
  (N.of_nat (capacity frames) < 120 + 8 * from_bytes_big length_bytes)%N ->
  extract dct_coeff frames =
    ({| extracted_bits := D;
        total_bits_to_extract := Some (120 + 8 * from_bytes_big length_bytes)%N;
        extraction_failed := false |},
     Some (_bitstream_to_payload D)).
Proof.
  cbv zeta. intros E H4 Hcap.
  pose proof (extract_ends block dct_coeff frames) as H. cbv zeta in H.
  set (D := decoded dct_coeff (blocks_of frames)) in *.
  assert (HD : length D = capacity frames)
    by (unfold D, decoded, capacity; now rewrite length_map).
  destruct (header_of_stream D length_bytes E H4) as (Hlen & Hok & Hdecl).
  destruct H as [(Hb & _ & Hf & Ht & _)|[(_ & _ & H3 & _)|(_ & H2 & _)]].
  - rewrite firstn_all in Hb.
    replace (length D <? header_len_bits)%nat with false in Ht
      by (symmetry; apply Nat.ltb_ge; lia).
    rewrite Hdecl in Ht.
    pose proof (state_eta _ _ _ _ Hb Ht Hf) as Hst.
    unfold extract in *. cbn [fst] in Hst. rewrite Hst. reflexivity.
  - lia.
  - congruence.
Qed.

(** ...and the payload test of [_bitstream_to_payload] fails as soon as
    eight bits or more are missing. *)
Lemma parse_truncated_stream (D : list bool) (length_bytes : list byte) :
  firstn header_len_bits D = bits_of_bytes (MARKER ++ length_bytes) ->
  length length_bytes = 4%nat ->
  (N.of_nat (length D) + 8 <= 120 + 8 * from_bytes_big length_bytes)%N ->
  _bitstream_to_payload D = Failed TruncatedPayload.
Proof.
  intros E H4 Hshort.
  destruct (header_of_stream D length_bytes E H4) as (Hlen & _ & _).
  rewrite header_len_bits_value in Hlen.
  pose proof (bytes_of_headed_stream D length_bytes E H4) as Hb.
  rewrite (parse_framed D length_bytes _ Hb H4). cbv zeta.
  pose proof (bytes_of_bits_length D) as Hl.
  pose proof (Nat.div_mod_eq (length D + 7) 8) as Hdm.
  pose proof (Nat.mod_upper_bound (length D + 7) 8) as Hub.
  rewrite length_skipn, Hl.
  replace (_ <? _)%nat with true; [reflexivity|].
  symmetry. apply Nat.ltb_lt. lia.
Qed.

(** A valid header and enough blocks: the payload written is spelled by the
    [8 L] bits after the header, whatever the later blocks decode to. *)
Lemma extract_complete (frames : list (frame block)) (length_bytes : list byte) :
  let D := decoded dct_coeff (blocks_of frames) in
  let st := fst (extract dct_coeff frames) in
  let L := N.to_nat (from_bytes_big length_bytes) in
  firstn header_len_bits D = bits_of_bytes (MARKER ++ length_bytes) ->
  length length_bytes = 4%nat ->
  (header_len_bits + 8 * L <= capacity frames)%nat ->
  extraction_failed st = false /\
  total_bits_to_extract st = Some (120 + 8 * from_bytes_big length_bytes)%N /\
  firstn (header_len_bits + 8 * L) (extracted_bits st)
  = firstn (header_len_bits + 8 * L) D /\
  (header_len_bits + 8 * L <= length (extracted_bits st)
   <= header_len_bits + 8 * L + pred (length frames))%nat /\
  snd (extract dct_coeff frames)
  = Some (Written (bytes_of_bits (firstn (8 * L) (skipn header_len_bits D)))).
Proof.
  cbv zeta. intros E H4 Hcap.
  pose proof (extract_ends block dct_coeff frames) as H. cbv zeta in H.
  set (D := decoded dct_coeff (blocks_of frames)) in *.
  set (L := N.to_nat (from_bytes_big length_bytes)) in *.
  assert (HD : length D = capacity frames)
    by (unfold D, decoded, capacity; now rewrite length_map).
  destruct (header_of_stream D length_bytes E H4) as (Hlen & Hok & Hdecl).
  assert (Ht : N.to_nat (declared_bits D) = (header_len_bits + 8 * L)%nat)
    by (rewrite Hdecl, header_len_bits_value; unfold L; lia).
  destruct H as [(_ & _ & _ & _ & Hh)|[(_ & _ & _ & H3 & H5 & extra & H6 & H7)|(_ & H2 & _)]].
  - destruct (Hh Hlen) as [_ Hlt]. lia.
  - rewrite Ht in H6.
    assert (Hf : length (firstn (header_len_bits + 8 * L) D)
                 = (header_len_bits + 8 * L)%nat)
      by (rewrite length_firstn; lia).
    split; [exact H3|]. split; [now rewrite H5, Hdecl|].
    split; [rewrite H6; now apply firstn_app_left|].
    split; [rewrite H6, length_app, Hf; lia|].
    unfold extract in *. cbn [fst snd] in *. rewrite H3, H6. cbn [negb]. f_equal.
    set (pb := firstn (8 * L) (skipn header_len_bits D)).
    assert (Hpb : length pb = (8 * L)%nat).
    { unfold pb. rewrite length_firstn, length_skipn. lia. }
    rewrite firstn_plus, E. fold pb.
    rewrite (parse_framed _ length_bytes
               (bytes_of_bits pb ++ bytes_of_bits extra)); trivial.
    + cbv zeta. fold L.
      rewrite length_app, (bytes_of_bits_length_exact L pb Hpb).
      replace (L + length (bytes_of_bits extra) <? L)%nat with false
        by (symmetry; apply Nat.ltb_ge; lia).
      rewrite firstn_app_left; [reflexivity|].
      symmetry. now apply bytes_of_bits_length_exact.
    + rewrite <- !app_assoc, bytes_of_bits_of_bytes.
      rewrite (bytes_of_bits_app L pb extra Hpb). now rewrite <- !app_assoc.
  - congruence.
Qed.

(** The accumulator never holds more bits than blocks were there to read,
    and passes the awaited count by at most one bit per later frame. *)
Lemma extract_band_length (row : band block) : forall st,
  (length (extracted_bits (extract_band dct_coeff row st))
   <= length (extracted_bits st) + length row)%nat.
Proof.
  induction row as [|blk row IH]; intros st; [cbn; lia|].
  cbn [extract_band length].
  assert (Hb : length (extracted_bits (fst (extract_block dct_coeff blk st)))
               = S (length (extracted_bits st))).
  { unfold extract_block.
    repeat match goal with |- context [if ?c then _ else _] => destruct c end;
      cbn [fst extracted_bits]; rewrite length_app; cbn; lia. }
  destruct (extract_block dct_coeff blk st) as [st' brk]. cbn [fst] in Hb.
  destruct brk; [lia|]. specialize (IH st'). lia.
Qed.

Lemma extract_bands_length (rows : frame block) : forall st,
  (length (extracted_bits (extract_bands dct_coeff rows st))
   <= length (extracted_bits st) + length (concat rows))%nat.
Proof.
  induction rows as [|row rows IH]; intros st; [cbn; lia|].
  cbn [extract_bands concat]. rewrite length_app.
  pose proof (extract_band_length row st) as Hb.
  destruct (extraction_failed _ || enough_bits _); [lia|].
  specialize (IH (extract_band dct_coeff row st)). lia.
Qed.

Lemma extract_frames_length (frames : list (frame block)) : forall st,
  (length (extracted_bits (extract_frames dct_coeff frames st))
   <= length (extracted_bits st) + capacity frames)%nat.
Proof.
  unfold capacity, blocks_of.
  induction frames as [|f frames IH]; intros st; [cbn; lia|].
  cbn [extract_frames flat_map]. rewrite length_app.
  pose proof (extract_bands_length f st) as Hb.
  specialize (IH (extract_bands dct_coeff f st)).
  change (blocks_of_frame f) with (concat f). lia.
Qed.

Lemma extract_overread (frames : list (frame block)) :
  let st := fst (extract dct_coeff frames) in
  (length (extracted_bits st) <= capacity frames)%nat /\
  (forall total, total_bits_to_extract st = Some total ->
     (N.of_nat header_len_bits <= total)%N /\
     (N.of_nat (length (extracted_bits st))
      <= total + N.of_nat (pred (length frames)))%N) /\
  (extraction_failed st = true ->
   total_bits_to_extract st = None /\
   (header_len_bits <= length (extracted_bits st)
    <= header_len_bits + pred (length frames))%nat).
Proof.
  cbv zeta. split.
  - unfold extract. cbn [fst].
    apply (extract_frames_length frames
             {| extracted_bits := []; total_bits_to_extract := None;
                extraction_failed := false |}).
  - pose proof (extract_ends block dct_coeff frames) as H. cbv zeta in H.
    set (D := decoded dct_coeff (blocks_of frames)) in *.
    pose proof (declared_bits_ge D) as Hge.
    destruct H as [(Hb & _ & Hf & Ht & Hh)|[(H1 & _ & Hle & H3 & H5 & extra & H6 & H7)|(H1 & _ & H3 & H4 & extra & H6 & H7)]].
    + split; [|intros Hx; congruence].
      intros total Htot. rewrite Ht in Htot.
      destruct (Nat.ltb_spec (length D) header_len_bits) as [L|L]; [discriminate|].
      injection Htot as <-. destruct (Hh L) as [_ Hlt].
      rewrite Hb, firstn_all. split; lia.
    + split; [|intros Hx; congruence].
      intros total Htot. rewrite H5 in Htot. injection Htot as <-.
      rewrite H6, length_app, length_firstn. split; lia.
    + split; [intros total Htot; congruence|].
      intros _. split; [exact H4|].
      rewrite H6, length_app, length_firstn. lia.
Qed.

End AnyCarrier.

End ExtractOutcome.

(** ** More on the embedder, and on frames after a complete stream *)

Module EmbedMore.
Import BitsFacts SliceFacts FramingFacts CodecFacts EmbedFacts ExtractFacts.
Import PipelineFacts FramingMore ExtractCases ExtractOutcome.

Section AnyCarrier.

Variable block : Type.
Variable dct_coeff : block -> Q.
Variable store_coeff : block -> Q -> block.

(** What [embed] reports and writes, in terms of the blocks in scan
    order. *)
Lemma embed_bitstream_spec (frames : list (frame block)) (bits : list bool) :
  let report := embed_bitstream dct_coeff store_coeff frames bits in
  blocks_of (stego_frames report)
  = embed_flat dct_coeff store_coeff (blocks_of frames) bits /\
  map (map (@length block)) (stego_frames report) = map (map (@length block)) frames /\
  frame_count report = length frames /\
  embedded_count report = Nat.min (capacity frames) (length bits) /\
  partial_warning report = (capacity frames <=? length bits)%nat.
Proof.
  cbv zeta. unfold embed_bitstream.
  destruct (embed_frames dct_coeff store_coeff frames _) as [out st] eqn:E.
  destruct (embed_frames_spec _ _ _ _ _ _ _ E) as (H1 & H2 & _ & H4 & H5);
    [discriminate|].
  specialize (H5 eq_refl).
  cbn [bitstream_iterator bits_embedded] in *.
  cbn [stego_frames frame_count embedded_count partial_warning].
  repeat split; trivial. rewrite H5. unfold capacity.
  destruct (Nat.ltb_spec (length bits) (length (blocks_of frames)));
    destruct (Nat.leb_spec (length (blocks_of frames)) (length bits));
    try reflexivity; lia.
Qed.

Lemma embed_flat_nth_error (blocks : list block) : forall bits k,
  nth_error (embed_flat dct_coeff store_coeff blocks bits) k =
    match nth_error blocks k with
    | None => None
    | Some blk =>
        Some (match nth_error bits k with
              | Some bit => embed_block dct_coeff store_coeff blk bit
              | None => blk
              end)
    end.
Proof.
  induction blocks as [|blk blocks IH]; intros bits k.
  - cbn. now destruct k.
  - destruct bits as [|bit bits].
    + cbn [embed_flat]. destruct (nth_error (blk :: blocks) k); [|reflexivity].
      now destruct k.
    + cbn [embed_flat]. destruct k as [|k]; [reflexivity|]. cbn [nth_error].
      apply IH.
Qed.

(** Frames that follow a complete stream do not change the payload that is
    written. *)
Lemma extract_more_frames (frames more : list (frame block))
    (length_bytes : list byte) :
  let D := decoded dct_coeff (blocks_of frames) in
  let L := N.to_nat (from_bytes_big length_bytes) in
  firstn header_len_bits D = bits_of_bytes (MARKER ++ length_bytes) ->
  length length_bytes = 4%nat ->
  (header_len_bits + 8 * L <= capacity frames)%nat ->
  snd (extract dct_coeff (frames ++ more)) = snd (extract dct_coeff frames).
Proof.
  cbv zeta. intros E H4 Hcap.
  set (D := decoded dct_coeff (blocks_of frames)) in *.
  set (L := N.to_nat (from_bytes_big length_bytes)) in *.
  assert (HD : length D = capacity frames)
    by (unfold D, decoded, capacity; now rewrite length_map).
  assert (HD' : decoded dct_coeff (blocks_of (frames ++ more))
                = D ++ decoded dct_coeff (blocks_of more)).
  { unfold D, decoded, blocks_of. now rewrite flat_map_app, map_app. }
  destruct (extract_complete block dct_coeff frames length_bytes E H4 Hcap)
    as (_ & _ & _ & _ & H1).
  rewrite H1.
  assert (E' : firstn header_len_bits (decoded dct_coeff (blocks_of (frames ++ more)))
               = bits_of_bytes (MARKER ++ length_bytes)).
  { rewrite HD', firstn_app_short by lia. exact E. }
  assert (Hcap' : (header_len_bits + 8 * L <= capacity (frames ++ more))%nat).
  { unfold capacity in *. unfold blocks_of. rewrite flat_map_app, length_app.
    fold (blocks_of frames). lia. }
  destruct (extract_complete block dct_coeff (frames ++ more) length_bytes E' H4 Hcap')
    as (_ & _ & _ & _ & H2).
  rewrite H2, HD'. do 3 f_equal.
  rewrite skipn_app.
  replace (header_len_bits - length D)%nat with 0%nat by lia. cbn [skipn].
  apply firstn_app_short. rewrite length_skipn. fold D. fold L. lia.
Qed.

End AnyCarrier.

End EmbedMore.

(** ** The script *)

Module ScriptFacts.
Import PipelineFacts ExtractOutcome.

Section AnyScript.

Variable block : Type.
Variable dct_coeff : block -> Q.
Variable store_coeff : block -> Q -> block.
Variable codec : list (frame block) -> list (frame block).
Variable get_file_hash : list byte -> string.

Lemma main_when_marker_rejected (payload : list byte) (frames : list (frame block))
    (bits : list bool) (before : option (list byte)) :
  let stego :=
    codec (stego_frames (embed_bitstream dct_coeff store_coeff frames bits)) in
  _payload_to_bitstream payload = Some bits ->
  (header_len_bits <= capacity stego)%nat ->
  firstn (length MARKER * 8) (decoded dct_coeff (blocks_of stego))
  <> bits_of_bytes MARKER ->
  main dct_coeff store_coeff codec get_file_hash (Some payload) (Some frames) before
  = match before with
    | Some stale =>
        if String.eqb (get_file_hash payload) (get_file_hash stale)
        then Success else Corrupted
    | None => NotCreated
    end.
Proof.
  cbv zeta. intros Hs Hcap Hne.
  destruct (extract_wrong_marker block dct_coeff _ Hcap Hne) as (_ & _ & _ & _ & Hx).
  unfold main, embed. rewrite Hs, Hx. reflexivity.
Qed.

End AnyScript.

End ScriptFacts.

(** * The properties of the specification *)

Import BitsFacts SliceFacts FramingFacts CodecFacts EmbedFacts ExtractFacts PipelineFacts.
Import Examples.

(** ** Round trip through the frames *)

(** C1 fails on the code: three black frames of 48 x 64 samples offer 144
    blocks for the 144 bits of [abc] and [embed] puts a bit into each, but
    the change of at most 0.46 per sample that it asks for is lost in
    [np.clip(...).astype(np.uint8)]; every block stays black, [extract]
    reads zeros, rejects the marker and writes nothing. *)
Lemma black_frames_lose_payload :
  (N.of_nat (length abc) < 2 ^ 32)%N /\
  (header_len_bits + 8 * length abc <= capacity black_frames)%nat /\
  option_map stego_frames (embed Grid.dct_coeff Grid.store_coeff black_frames abc)
  = Some black_frames /\
  embed_then_extract Grid.dct_coeff Grid.store_coeff black_frames abc = None.
Proof.
  assert (E : embed Grid.dct_coeff Grid.store_coeff black_frames abc
              = Some {| stego_frames := black_frames; frame_count := 3;
                        embedded_count := 144; partial_warning := true |})
    by (vm_compute; reflexivity).
  unfold embed_then_extract. rewrite E. cbn [option_map stego_frames].
  split; [reflexivity|]. split; [vm_compute; lia|]. split; [reflexivity|].
  vm_compute. reflexivity.
Qed.

(** ** The scan of the extractor *)

(** C2 fails on the code: on five frames of 48 blocks that carry the 120
    bits of the empty payload, [required_bits] is 120 and is reached in the
    third frame, yet the first block of the fourth and of the fifth frame is
    decoded too, so 122 bits are handed on. *)
Theorem extract_reads_on_after_required_bits :
  let st := fst (extract Lossless.dct_coeff empty_payload_then_more) in
  length (extracted_bits (fst (extract Lossless.dct_coeff
                                 (firstn 3 empty_payload_then_more)))) = 120%nat /\
  total_bits_to_extract st = Some 120%N /\
  length (extracted_bits st) = 122%nat /\
  snd (extract Lossless.dct_coeff empty_payload_then_more) = Some (Written []).
Proof. vm_compute. repeat split; reflexivity. Qed.

(** C3 fails on the code: on five frames of 48 blocks that decode to zeros,
    the marker is rejected at the 120th bit, in the third frame, yet the
    first block of the fourth and of the fifth frame is decoded too; no
    payload is written. *)
Theorem extract_reads_on_after_marker_mismatch :
  let early := fst (extract Lossless.dct_coeff (firstn 3 no_marker)) in
  let st := fst (extract Lossless.dct_coeff no_marker) in
  extraction_failed early = true /\
  length (extracted_bits early) = 120%nat /\
  extraction_failed st = true /\
  length (extracted_bits st) = 122%nat /\
  snd (extract Lossless.dct_coeff no_marker) = None.
Proof. vm_compute. repeat split; reflexivity. Qed.

(** C4 fails on the code: a frame of 143 blocks with the first 143 of the
    144 bits of [abc] ends before [required_bits = 144] is reached, yet the
    seven trailing bits count as a byte and the payload [{0x41, 0x42, 0x21}]
    is written.  Likewise a frame of 113 blocks with the first 113 bits of
    the empty payload ends before the header is complete, yet an empty
    payload is written. *)
Theorem extract_writes_payload_of_short_stream :
  let st := fst (extract Lossless.dct_coeff abc_cut_short) in
  let st' := fst (extract Lossless.dct_coeff header_cut_short) in
  (total_bits_to_extract st = Some 144%N /\
   length (extracted_bits st) = 143%nat /\
   extraction_failed st = false /\
   snd (extract Lossless.dct_coeff abc_cut_short) = Some (Written [x41; x42; x21])) /\
  (total_bits_to_extract st' = None /\
   length (extracted_bits st') = 113%nat /\
   snd (extract Lossless.dct_coeff header_cut_short) = Some (Written [])).
Proof. vm_compute. repeat split; reflexivity. Qed.

(** ** Bit codec *)

(** C5: for every coefficient [c0], bit [b] and perturbation [e] with
    [|e| < q/4], [Encode c0 b] is a point of the lattice of [b] (a multiple
    of [q], shifted by [q/2] for [b = 1]) at most [q/2] away from [c0], and
    [Decode (Encode c0 b + e) = b]. *)
Theorem decode_encode_noise_tolerance (c0 e : Q) (b : bool) :
  Qabs e < QUANTIZATION_STEP / 4 ->
  (exists k : Z,
     Encode c0 b ==
       inject_Z k * QUANTIZATION_STEP + (if b then QUANTIZATION_STEP / 2 else 0)) /\
  Qabs (c0 - Encode c0 b) <= QUANTIZATION_STEP / 2 /\
  Decode (Encode c0 b + e) = b.
Proof.
  intros H. split; [|split].
  - destruct (Encode_on_lattice c0 b) as [k Hk]. exists k. rewrite Hk.
    unfold QUANTIZATION_STEP. destruct b; [reflexivity|ring].
  - unfold QUANTIZATION_STEP. setoid_replace (4 / 2) with 2 by reflexivity.
    apply Encode_nearest.
  - apply Decode_Encode_noise. unfold QUANTIZATION_STEP in H.
    now setoid_replace (4 / 4) with 1 in H by reflexivity.
Qed.

Lemma decode_encode_noise_tolerance_witness :
  Qabs (1 # 2) < QUANTIZATION_STEP / 4 /\
  Decode (Encode (7 # 3) true + (1 # 2)) = true.
Proof.
  assert (H : Qabs (1 # 2) < QUANTIZATION_STEP / 4) by reflexivity.
  split; [exact H|].
  exact (proj2 (proj2 (decode_encode_noise_tolerance (7 # 3) (1 # 2) true H))).
Defined.

(** C6: a coefficient at the same distance from its nearest point of the
    0-lattice and its nearest point of the 1-lattice decodes to bit 0: the
    two distances are compared with [<=]. *)
Theorem decode_tie_goes_to_zero (c : Q) :
  Qabs (c - nearest_zero c) == Qabs (c - nearest_one c) -> Decode c = false.
Proof.
  intros H. apply Decode_false_iff. rewrite H. apply Qle_refl.
Qed.

Lemma decode_tie_goes_to_zero_witness :
  Qabs (1 - nearest_zero 1) == Qabs (1 - nearest_one 1) /\ Decode 1 = false.
Proof.
  assert (H : Qabs (1 - nearest_zero 1) == Qabs (1 - nearest_one 1)) by reflexivity.
  split; [exact H|]. exact (decode_tie_goes_to_zero 1 H).
Defined.

(** ** Framing codec *)

(** C7: when the bytes rebuilt from a bitstream are [MARKER], four bytes
    that read as [L] in big-endian order, and [rest], then
    [_bitstream_to_payload] fails with [TruncatedPayload] if [rest] has
    fewer than [L] bytes, and otherwise returns the first [L] bytes of
    [rest], whatever follows them and whatever bits are appended to the
    stream. *)
Theorem parse_checks_declared_length
    (bitstream : list bool) (length_bytes rest : list byte) :
  bytes_of_bits bitstream = MARKER ++ length_bytes ++ rest ->
  length length_bytes = 4%nat ->
  let L := N.to_nat (from_bytes_big length_bytes) in
  ((length rest < L)%nat ->
   _bitstream_to_payload bitstream = Failed TruncatedPayload) /\
  ((L <= length rest)%nat ->
   _bitstream_to_payload bitstream = Written (firstn L rest) /\
   forall (k : nat) (extra : list bool),
     length bitstream = (8 * k)%nat ->
     _bitstream_to_payload (bitstream ++ extra) = Written (firstn L rest)).
Proof.
  intros E H4 L. split; [|intros H; split].
  - intros Hlt. rewrite (parse_framed _ _ _ E H4). cbv zeta. fold L.
    apply Nat.ltb_lt in Hlt. now rewrite Hlt.
  - rewrite (parse_framed _ _ _ E H4). cbv zeta. fold L.
    pose proof H as H'. apply Nat.ltb_ge in H'. now rewrite H'.
  - intros k extra Hk.
    rewrite (parse_framed (bitstream ++ extra) length_bytes
               (rest ++ bytes_of_bits extra)); trivial.
    + cbv zeta. fold L.
      replace (length (rest ++ bytes_of_bits extra) <? L)%nat with false.
      * now rewrite firstn_app_short by exact H.
      * symmetry. apply Nat.ltb_ge. rewrite length_app. lia.
    + rewrite (bytes_of_bits_app k _ _ Hk), E. now rewrite <- !app_assoc.
Qed.

Lemma parse_checks_declared_length_witness :
  bytes_of_bits (stream_of abc) = MARKER ++ [x00; x00; x00; x03] ++ abc /\
  length [x00; x00; x00; x03] = 4%nat /\
  _bitstream_to_payload (stream_of abc) = Written abc /\
  _bitstream_to_payload (stream_of abc ++ [true; false; true]) = Written abc.
Proof.
  assert (H1 : bytes_of_bits (stream_of abc) = MARKER ++ [x00; x00; x00; x03] ++ abc)
    by reflexivity.
  assert (H2 : length [x00; x00; x00; x03] = 4%nat) by reflexivity.
  assert (H3 : (N.to_nat (from_bytes_big [x00; x00; x00; x03]) <= length abc)%nat)
    by (vm_compute; lia).
  pose proof (proj2 (parse_checks_declared_length (stream_of abc)
                       [x00; x00; x00; x03] abc H1 H2) H3) as [P1 P2].
  split; [exact H1|]. split; [exact H2|]. split; [exact P1|].
  exact (P2 18%nat [true; false; true] eq_refl).
Defined.

(** C8: a bit sequence of at least [(len(MARKER) + 4) * 8] bits whose first
    [len(MARKER) * 8] bits are not the bits of [MARKER] is rejected with
    [MarkerMismatch] whatever follows; the test compares the first
    [len(MARKER)] rebuilt bytes with [MARKER]. *)
Theorem parse_rejects_wrong_marker (bitstream : list bool) :
  ((length MARKER + 4) * 8 <= length bitstream)%nat ->
  firstn (length MARKER * 8) bitstream <> bits_of_bytes MARKER ->
  firstn (length MARKER) (bytes_of_bits bitstream) <> MARKER /\
  _bitstream_to_payload bitstream = Failed MarkerMismatch.
Proof.
  intros Hlen Hne.
  assert (Hbytes : firstn (length MARKER) (bytes_of_bits bitstream) <> MARKER).
  { intros E. apply Hne. apply marker_bytes_iff_bits; [|exact E].
    change (length MARKER) with 11%nat in *. lia. }
  split; [exact Hbytes|].
  apply parse_wrong_marker; [|exact Hbytes].
  apply bytes_of_bits_length_ge. change (length MARKER) with 11%nat in *. lia.
Qed.

Lemma parse_rejects_wrong_marker_witness :
  ((length MARKER + 4) * 8 <= length (repeat false 120))%nat /\
  firstn (length MARKER * 8) (repeat false 120) <> bits_of_bytes MARKER /\
  _bitstream_to_payload (repeat false 120) = Failed MarkerMismatch.
Proof.
  assert (H1 : ((length MARKER + 4) * 8 <= length (repeat false 120))%nat)
    by (vm_compute; lia).
  assert (H2 : firstn (length MARKER * 8) (repeat false 120) <> bits_of_bytes MARKER)
    by (vm_compute; discriminate).
  split; [exact H1|]. split; [exact H2|].
  exact (proj2 (parse_rejects_wrong_marker (repeat false 120) H1 H2)).
Defined.

(** C10: for every payload [p] shorter than [2^32] bytes,
    [_payload_to_bitstream] yields the bits, most significant first, of
    [MARKER], the length of [p] on four big-endian bytes, and [p]; parsing
    that bitstream returns [p]. *)
Theorem framing_roundtrip (p : list byte) :
  (N.of_nat (length p) < 2 ^ 32)%N ->
  exists (length_bytes : list byte) (bits : list bool),
    length length_bytes = 4%nat /\
    from_bytes_big length_bytes = N.of_nat (length p) /\
    bits = flat_map format_08b (MARKER ++ length_bytes ++ p) /\
    _payload_to_bitstream p = Some bits /\
    _bitstream_to_payload bits = Written p.
Proof.
  intros Hlt. destruct (serialize_some p Hlt) as (lb & H4 & Hv & E).
  exists lb, (bits_of_bytes (MARKER ++ lb ++ p)). repeat split; trivial.
  rewrite <- (app_nil_r (bits_of_bytes _)). now apply parse_serialized.
Qed.

Lemma framing_roundtrip_witness :
  (N.of_nat (length abc) < 2 ^ 32)%N /\
  exists (length_bytes : list byte) (bits : list bool),
    length length_bytes = 4%nat /\
    from_bytes_big length_bytes = N.of_nat (length abc) /\
    bits = flat_map format_08b (MARKER ++ length_bytes ++ abc) /\
    _payload_to_bitstream abc = Some bits /\
    _bitstream_to_payload bits = Written abc.
Proof.
  assert (H : (N.of_nat (length abc) < 2 ^ 32)%N) by reflexivity.
  split; [exact H|]. exact (framing_roundtrip abc H).
Defined.

(** ** The embedder once the bitstream is used up *)

(** C9: when the bitstream runs out within frame [f] (its last bit goes to
    a block before the last block of [f], or to the last block of the frame
    before), the frame written for [f] has the shape of [f], its blocks from
    the first one without a bit onwards are those of [f], and every later
    frame is written as it was read. *)
Theorem embed_passes_through_after_exhaustion
    (block : Type) (dct_coeff : block -> Q) (store_coeff : block -> Q -> block)
    (before : list (frame block)) (f : frame block) (after : list (frame block))
    (bitstream : list bool) :
  (capacity before <= length bitstream)%nat ->
  (length bitstream < capacity before + length (blocks_of_frame f))%nat ->
  exists (out_before : list (frame block)) (f' : frame block),
    stego_frames
      (embed_bitstream dct_coeff store_coeff (before ++ f :: after) bitstream)
    = out_before ++ f' :: after /\
    length out_before = length before /\
    map (@length block) f' = map (@length block) f /\
    skipn (length bitstream - capacity before) (blocks_of_frame f')
    = skipn (length bitstream - capacity before) (blocks_of_frame f).
Proof.
  intros Hlo Hhi. unfold capacity in *. unfold embed_bitstream.
  rewrite embed_frames_app.
  set (st0 := {| bitstream_iterator := bitstream; bits_embedded := 0;
                 embedding_complete := false |}).
  pose proof (embed_frames_length block dct_coeff store_coeff before st0) as Hlen.
  destruct (embed_frames dct_coeff store_coeff before st0) as [out_before st1] eqn:Ea.
  destruct (embed_frames_spec _ _ _ _ _ _ _ Ea) as (_ & _ & Hit & _ & Hc);
    [discriminate|].
  specialize (Hc eq_refl). cbn [bitstream_iterator st0] in Hit, Hc.
  assert (Hc1 : embedding_complete st1 = false)
    by (rewrite Hc; apply Nat.ltb_ge; exact Hlo).
  cbn [embed_frames]. rewrite Hc1. cbn [negb].
  destruct (embed_bands dct_coeff store_coeff f st1) as [f' st2] eqn:Ef.
  destruct (embed_bands_spec _ _ _ _ _ _ _ Ef Hc1) as (Hflat & Hshape & _ & _ & Hc2).
  assert (Hrem : length (bitstream_iterator st1)
                 = (length bitstream - length (blocks_of before))%nat)
    by (rewrite Hit; apply length_skipn).
  assert (Hc2' : embedding_complete st2 = true).
  { rewrite Hc2. apply Nat.ltb_lt. rewrite Hrem.
    change (blocks_of_frame f) with (concat f) in Hhi. lia. }
  rewrite (embed_frames_complete _ dct_coeff store_coeff after st2 Hc2').
  cbn [stego_frames]. exists out_before, f'. repeat split; trivial.
  change (blocks_of_frame f') with (concat f').
  change (blocks_of_frame f) with (concat f).
  rewrite Hflat, <- Hrem. apply embed_flat_skipn.
Qed.

Lemma embed_passes_through_after_exhaustion_witness :
  (capacity lossless_before <= length bits_130)%nat /\
  (length bits_130 < capacity lossless_before + length (blocks_of_frame lossless_frame))%nat /\
  exists (out_before : list (frame Lossless.block)) (f' : frame Lossless.block),
    stego_frames
      (embed_bitstream Lossless.dct_coeff Lossless.store_coeff
         (lossless_before ++ lossless_frame :: lossless_after) bits_130)
    = out_before ++ f' :: lossless_after /\
    length out_before = length lossless_before /\
    map (@length Lossless.block) f' = map (@length Lossless.block) lossless_frame /\
    skipn (length bits_130 - capacity lossless_before) (blocks_of_frame f')
    = skipn (length bits_130 - capacity lossless_before)
        (blocks_of_frame lossless_frame).
Proof.
  assert (H1 : (capacity lossless_before <= length bits_130)%nat)
    by (vm_compute; lia).
  assert (H2 : (length bits_130
                < capacity lossless_before + length (blocks_of_frame lossless_frame))%nat)
    by (vm_compute; lia).
  split; [exact H1|]. split; [exact H2|].
  exact (embed_passes_through_after_exhaustion Lossless.block Lossless.dct_coeff
           Lossless.store_coeff lossless_before lossless_frame lossless_after
           bits_130 H1 H2).
Defined.

(** * Further properties of the code *)

Import FramingMore CodecRegions ExtractCases ExtractOutcome EmbedMore ScriptFacts.
Import MoreExamples.

(** ** Framing codec *)

(** X1: [_payload_to_bitstream] yields [(len(MARKER) + 4 + L) * 8] bits for
    a payload of [L < 2^32] bytes and raises otherwise. *)
Theorem serialize_length_or_overflow (p : list byte) :
  match _payload_to_bitstream p with
  | Some bits =>
      (N.of_nat (length p) < 2 ^ 32)%N /\
      length bits = ((length MARKER + 4 + length p) * 8)%nat
  | None => (2 ^ 32 <= N.of_nat (length p))%N
  end.
Proof.
  unfold _payload_to_bitstream, to_bytes4_big.
  destruct (N.ltb_spec (N.of_nat (length p)) (2 ^ 32)) as [H|H]; [|exact H].
  split; [exact H|].
  rewrite bits_of_bytes_length, !length_app, length_map. cbn [length]. lia.
Qed.

(** X2: the bits of a byte sequence rebuild to that sequence, and the bytes
    rebuilt from a whole number of octets spell the bits they came from. *)
Theorem bits_and_bytes_roundtrip (bs : list byte) (s : list bool) (k : nat) :
  length s = (8 * k)%nat ->
  bytes_of_bits (bits_of_bytes bs) = bs /\
  bits_of_bytes (bytes_of_bits s) = s.
Proof.
  intros H. split.
  - rewrite <- (app_nil_r (bits_of_bytes bs)), bytes_of_bits_of_bytes.
    apply app_nil_r.
  - exact (bits_of_bytes_of_bits k s H).
Qed.

Lemma bits_and_bytes_roundtrip_witness :
  length (stream_of abc) = (8 * 18)%nat /\
  bytes_of_bits (bits_of_bytes abc) = abc /\
  bits_of_bytes (bytes_of_bits (stream_of abc)) = stream_of abc.
Proof.
  assert (H : length (stream_of abc) = (8 * 18)%nat) by reflexivity.
  split; [exact H|]. exact (bits_and_bytes_roundtrip abc (stream_of abc) 18 H).
Defined.

(** X3: the byte array rebuilt from [n] bits has [ceil(n / 8)] bytes: a
    trailing slice of fewer than eight bits counts as a byte. *)
Theorem rebuilt_byte_count (s : list bool) :
  length (bytes_of_bits s) = ((length s + 7) / 8)%nat.
Proof. exact (bytes_of_bits_length s). Qed.

(** X4: [_bitstream_to_payload] reports an incomplete header exactly for
    bitstreams of at most 112 bits; from 113 bits on, fifteen bytes are
    rebuilt and the header is read. *)
Theorem parse_incomplete_header_iff (s : list bool) :
  _bitstream_to_payload s = Failed IncompleteHeader <-> (length s <= 112)%nat.
Proof. exact (parse_incomplete_iff s). Qed.

(** X5: whenever [_bitstream_to_payload] writes a payload, the bitstream
    starts with the bits of [MARKER], and its bytes are [MARKER], four bytes
    holding the length of what is written, the payload written, and a
    rest. *)
Theorem parse_writes_only_framed_payloads (s : list bool) (p : list byte) :
  _bitstream_to_payload s = Written p ->
  firstn (length MARKER * 8) s = bits_of_bytes MARKER /\
  exists length_bytes tail,
    bytes_of_bits s = MARKER ++ length_bytes ++ p ++ tail /\
    length length_bytes = 4%nat /\
    from_bytes_big length_bytes = N.of_nat (length p).
Proof. exact (parse_written_inv s p). Qed.

Lemma parse_writes_only_framed_payloads_witness :
  _bitstream_to_payload (stream_of abc ++ [true; true; false]) = Written abc /\
  firstn (length MARKER * 8) (stream_of abc ++ [true; true; false])
  = bits_of_bytes MARKER /\
  exists length_bytes tail,
    bytes_of_bits (stream_of abc ++ [true; true; false])
    = MARKER ++ length_bytes ++ abc ++ tail /\
    length length_bytes = 4%nat /\
    from_bytes_big length_bytes = N.of_nat (length abc).
Proof.
  assert (H : _bitstream_to_payload (stream_of abc ++ [true; true; false])
              = Written abc) by reflexivity.
  split; [exact H|].
  exact (parse_writes_only_framed_payloads _ abc H).
Defined.

(** X6: no serialised payload is the start of another: if the bitstream of
    [p2] begins with the bitstream of [p1], the payloads are equal. *)
Theorem serialization_is_prefix_free (p1 p2 : list byte) (b1 extra : list bool) :
  _payload_to_bitstream p1 = Some b1 ->
  _payload_to_bitstream p2 = Some (b1 ++ extra) ->
  p1 = p2 /\ extra = [].
Proof. exact (serialized_prefix_free p1 p2 b1 extra). Qed.

Lemma serialization_is_prefix_free_witness :
  _payload_to_bitstream abc = Some (stream_of abc) /\
  _payload_to_bitstream abc = Some (stream_of abc ++ []) /\
  abc = abc /\ @nil bool = [].
Proof.
  assert (H1 : _payload_to_bitstream abc = Some (stream_of abc)) by reflexivity.
  assert (H2 : _payload_to_bitstream abc = Some (stream_of abc ++ []))
    by reflexivity.
  split; [exact H1|]. split; [exact H2|].
  exact (serialization_is_prefix_free abc abc (stream_of abc) [] H1 H2).
Defined.

(** X7: the four bytes of [n.to_bytes(4, 'big')] read back as [n] with
    [int.from_bytes(..., 'big')] for [n < 2^32]; larger lengths raise. *)
Theorem length_field_roundtrip (n : N) :
  match to_bytes4_big n with
  | Some bs => (n < 2 ^ 32)%N /\ length bs = 4%nat /\ from_bytes_big bs = n
  | None => (2 ^ 32 <= n)%N
  end.
Proof.
  destruct (to_bytes4_big n) as [bs|] eqn:E.
  - destruct (to_bytes4_big_spec n bs E) as [H4 Hv]. repeat split; trivial.
    unfold to_bytes4_big in E.
    destruct (N.ltb_spec n (2 ^ 32)); [assumption|discriminate].
  - unfold to_bytes4_big in E.
    destruct (N.ltb_spec n (2 ^ 32)); [discriminate|assumption].
Qed.

(** ** Bit codec *)

(** X8: [Decode] yields 1 exactly when the coefficient lies more than [q/4]
    and less than [3q/4] above the multiple of [q] below it. *)
Theorem decode_regions (c : Q) :
  let q := QUANTIZATION_STEP in
  let r := c - inject_Z (Qfloor (c / q)) * q in
  Decode c = true <-> q / 4 < r /\ r < 3 * q / 4.
Proof.
  cbv zeta. unfold QUANTIZATION_STEP.
  pose proof (Decode_true_iff_offset c) as H. cbv zeta in H. rewrite H.
  setoid_replace (4 / 4) with 1 by reflexivity.
  setoid_replace (3 * 4 / 4) with 3 by reflexivity.
  reflexivity.
Qed.

(** X9: the decoded bit depends on the coefficient modulo [q] only. *)
Theorem decode_is_periodic (c : Q) (k : Z) :
  Decode (c + inject_Z k * QUANTIZATION_STEP) = Decode c.
Proof. exact (Decode_periodic c k). Qed.

(** X10: a perturbation of an encoded coefficient by more than [q/4] and
    less than [3q/4] flips the decoded bit. *)
Theorem noise_beyond_quarter_flips (c0 e : Q) (b : bool) :
  QUANTIZATION_STEP / 4 < Qabs e ->
  Qabs e < 3 * QUANTIZATION_STEP / 4 ->
  Decode (Encode c0 b + e) = negb b.
Proof.
  unfold QUANTIZATION_STEP. intros H1 H2.
  setoid_replace (4 / 4) with 1 in H1 by reflexivity.
  setoid_replace (3 * 4 / 4) with 3 in H2 by reflexivity.
  now apply Decode_Encode_flipped.
Qed.

Lemma noise_beyond_quarter_flips_witness :
  QUANTIZATION_STEP / 4 < Qabs (-2) /\
  Qabs (-2) < 3 * QUANTIZATION_STEP / 4 /\
  Decode (Encode (7 # 3) true + -2) = false.
Proof.
  assert (H1 : QUANTIZATION_STEP / 4 < Qabs (-2)) by reflexivity.
  assert (H2 : Qabs (-2) < 3 * QUANTIZATION_STEP / 4) by reflexivity.
  split; [exact H1|]. split; [exact H2|].
  exact (noise_beyond_quarter_flips (7 # 3) (-2) true H1 H2).
Defined.

(** X11: a perturbation of exactly [q/4] decodes to 0 whichever bit was
    embedded, so the bound of the noise tolerance cannot be relaxed. *)
Theorem noise_of_a_quarter_decodes_to_zero (c0 e : Q) (b : bool) :
  Qabs e == QUANTIZATION_STEP / 4 ->
  Decode (Encode c0 b + e) = false.
Proof.
  unfold QUANTIZATION_STEP. intros H.
  setoid_replace (4 / 4) with 1 in H by reflexivity.
  now apply Decode_Encode_at_quarter.
Qed.

Lemma noise_of_a_quarter_decodes_to_zero_witness :
  Qabs 1 == QUANTIZATION_STEP / 4 /\ Decode (Encode (7 # 3) true + 1) = false.
Proof.
  assert (H : Qabs 1 == QUANTIZATION_STEP / 4) by reflexivity.
  split; [exact H|].
  exact (noise_of_a_quarter_decodes_to_zero (7 # 3) 1 true H).
Defined.

(** X12: encoding an encoded coefficient again with the same bit leaves it
    where it is. *)
Theorem encode_is_idempotent (c0 : Q) (b : bool) :
  Encode (Encode c0 b) b == Encode c0 b.
Proof. rewrite (Encode_idempotent c0 b). reflexivity. Qed.

(** X26: [Encode] moves a coefficient to a nearest point of the lattice of
    its bit: no multiple of [q], shifted by [q/2] for bit 1, is nearer. *)
Theorem encode_is_nearest (c0 : Q) (b : bool) (j : Z) :
  Qabs (c0 - Encode c0 b)
  <= Qabs (c0 - (inject_Z j * QUANTIZATION_STEP
                 + (if b then QUANTIZATION_STEP / 2 else 0))).
Proof.
  pose proof (Encode_nearest_point c0 b j) as H. unfold QUANTIZATION_STEP.
  destruct b; [|exact H].
  setoid_replace (4 / 2) with 2 by reflexivity. exact H.
Qed.

(** ** Embedder *)

(** X13: [embed] embeds as many bits as the smaller of carrier capacity and
    bitstream length, and prints its warning exactly when the capacity does
    not exceed the bitstream length, also when every bit found a block. *)
Theorem embed_counts (block : Type) (dct_coeff : block -> Q)
    (store_coeff : block -> Q -> block)
    (frames : list (frame block)) (bitstream : list bool) :
  let report := embed_bitstream dct_coeff store_coeff frames bitstream in
  embedded_count report = Nat.min (capacity frames) (length bitstream) /\
  partial_warning report = (capacity frames <=? length bitstream)%nat.
Proof.
  cbv zeta.
  destruct (embed_bitstream_spec block dct_coeff store_coeff frames bitstream)
    as (_ & _ & _ & H2 & H3).
  now split.
Qed.

(** X14: the frames [embed] writes are as many as it read, each with the
    bands and the blocks per band of the frame it came from. *)
Theorem embed_keeps_shape (block : Type) (dct_coeff : block -> Q)
    (store_coeff : block -> Q -> block)
    (frames : list (frame block)) (bitstream : list bool) :
  map (map (@length block))
      (stego_frames (embed_bitstream dct_coeff store_coeff frames bitstream))
  = map (map (@length block)) frames.
Proof.
  destruct (embed_bitstream_spec block dct_coeff store_coeff frames bitstream)
    as (_ & H & _).
  exact H.
Qed.

(** X15: in the order of the scan, the block at position [k] of the output
    is the block at position [k] of the input with bit [k] of the bitstream
    embedded, or the input block itself if the bitstream has no bit [k],
    however the blocks are spread over bands and frames. *)
Theorem embed_block_by_block (block : Type) (dct_coeff : block -> Q)
    (store_coeff : block -> Q -> block)
    (frames : list (frame block)) (bitstream : list bool) (k : nat) :
  nth_error
    (blocks_of (stego_frames (embed_bitstream dct_coeff store_coeff frames bitstream)))
    k
  = match nth_error (blocks_of frames) k with
    | None => None
    | Some blk =>
        Some (match nth_error bitstream k with
              | Some bit => embed_block dct_coeff store_coeff blk bit
              | None => blk
              end)
    end.
Proof.
  destruct (embed_bitstream_spec block dct_coeff store_coeff frames bitstream)
    as (H & _).
  rewrite H. apply embed_flat_nth_error.
Qed.

(** ** Extractor *)

(** X17: on a video with fewer blocks than header bits, [extract] decodes
    every block, sets no bit count, does not fail, and hands all bits to
    [_bitstream_to_payload]; with at most 112 blocks this reports an
    incomplete header. *)
Theorem extract_short_video (block : Type) (dct_coeff : block -> Q)
    (frames : list (frame block)) :
  (capacity frames < header_len_bits)%nat ->
  extract dct_coeff frames =
    ({| extracted_bits := decoded dct_coeff (blocks_of frames);
        total_bits_to_extract := None;
        extraction_failed := false |},
     Some (_bitstream_to_payload (decoded dct_coeff (blocks_of frames)))) /\
  ((capacity frames <= 112)%nat ->
   snd (extract dct_coeff frames) = Some (Failed IncompleteHeader)).
Proof.
  intros H. rewrite (extract_short block dct_coeff frames H). split; [reflexivity|].
  intros H112. cbn [snd]. f_equal. apply parse_incomplete_iff.
  unfold decoded. rewrite length_map. exact H112.
Qed.

Lemma extract_short_video_witness :
  (capacity hundred_blocks < header_len_bits)%nat /\
  (capacity hundred_blocks <= 112)%nat /\
  snd (extract Lossless.dct_coeff hundred_blocks) = Some (Failed IncompleteHeader).
Proof.
  assert (H1 : (capacity hundred_blocks < header_len_bits)%nat) by (vm_compute; lia).
  assert (H2 : (capacity hundred_blocks <= 112)%nat) by (vm_compute; lia).
  split; [exact H1|]. split; [exact H2|].
  exact (proj2 (extract_short_video Lossless.block Lossless.dct_coeff
                  hundred_blocks H1) H2).
Defined.

(** X18: when the video has at least [header_len_bits] blocks and the first
    [len(MARKER) * 8] decoded bits are not those of [MARKER], [extract]
    marks the run as failed, sets no bit count, keeps the header bits at the
    front of the accumulator and writes nothing, whatever the other blocks
    hold. *)
Theorem extract_rejects_wrong_marker (block : Type) (dct_coeff : block -> Q)
    (frames : list (frame block)) :
  let D := decoded dct_coeff (blocks_of frames) in
  let st := fst (extract dct_coeff frames) in
  (header_len_bits <= capacity frames)%nat ->
  firstn (length MARKER * 8) D <> bits_of_bytes MARKER ->
  extraction_failed st = true /\
  total_bits_to_extract st = None /\
  firstn header_len_bits (extracted_bits st) = firstn header_len_bits D /\
  snd (extract dct_coeff frames) = None.
Proof.
  cbv zeta. intros H1 H2.
  destruct (extract_wrong_marker block dct_coeff frames H1 H2)
    as (G1 & G2 & G3 & _ & G5).
  now repeat split.
Qed.

Lemma extract_rejects_wrong_marker_witness :
  (header_len_bits <= capacity no_marker)%nat /\
  firstn (length MARKER * 8) (decoded Lossless.dct_coeff (blocks_of no_marker))
  <> bits_of_bytes MARKER /\
  snd (extract Lossless.dct_coeff no_marker) = None.
Proof.
  assert (H1 : (header_len_bits <= capacity no_marker)%nat) by (vm_compute; lia).
  assert (H2 : firstn (length MARKER * 8)
                 (decoded Lossless.dct_coeff (blocks_of no_marker))
               <> bits_of_bytes MARKER) by (vm_compute; discriminate).
  split; [exact H1|]. split; [exact H2|].
  exact (proj2 (proj2 (proj2 (extract_rejects_wrong_marker Lossless.block
                                Lossless.dct_coeff no_marker H1 H2)))).
Defined.

(** X19: when the decoded bits start with a valid header that declares [L]
    bytes and the video has fewer than [header_len_bits + 8 L] blocks,
    [extract] decodes every block once, in order, and hands the bits to
    [_bitstream_to_payload]; if eight bits or more are missing, the payload
    is reported incomplete and nothing is written. *)
Theorem extract_truncated_stream (block : Type) (dct_coeff : block -> Q)
    (frames : list (frame block)) (length_bytes : list byte) :
  let D := decoded dct_coeff (blocks_of frames) in
  let required := (120 + 8 * from_bytes_big length_bytes)%N in
  firstn header_len_bits D = bits_of_bytes (MARKER ++ length_bytes) ->
  length length_bytes = 4%nat ->
  (N.of_nat (capacity frames) < required)%N ->
  extract dct_coeff frames =
    ({| extracted_bits := D;
        total_bits_to_extract := Some required;
        extraction_failed := false |},
     Some (_bitstream_to_payload D)) /\
  ((N.of_nat (capacity frames) + 8 <= required)%N ->
   snd (extract dct_coeff frames) = Some (Failed TruncatedPayload)).
Proof.
  cbv zeta. intros E H4 Hcap.
  rewrite (extract_truncated block dct_coeff frames length_bytes E H4 Hcap).
  split; [reflexivity|]. intros H8. cbn [snd]. f_equal.
  apply (parse_truncated_stream _ length_bytes E H4).
  unfold decoded. rewrite length_map. exact H8.
Qed.

Lemma extract_truncated_stream_witness :
  firstn header_len_bits (decoded Lossless.dct_coeff (blocks_of abc_cut_at_130))
  = bits_of_bytes (MARKER ++ [x00; x00; x00; x03]) /\
  length [x00; x00; x00; x03] = 4%nat /\
  (N.of_nat (capacity abc_cut_at_130)
   < 120 + 8 * from_bytes_big [x00; x00; x00; x03])%N /\
  (N.of_nat (capacity abc_cut_at_130) + 8
   <= 120 + 8 * from_bytes_big [x00; x00; x00; x03])%N /\
  snd (extract Lossless.dct_coeff abc_cut_at_130) = Some (Failed TruncatedPayload).
Proof.
  assert (H1 : firstn header_len_bits
                 (decoded Lossless.dct_coeff (blocks_of abc_cut_at_130))
               = bits_of_bytes (MARKER ++ [x00; x00; x00; x03]))
    by (vm_compute; reflexivity).
  assert (H2 : length [x00; x00; x00; x03] = 4%nat) by reflexivity.
  assert (H3 : (N.of_nat (capacity abc_cut_at_130)
                < 120 + 8 * from_bytes_big [x00; x00; x00; x03])%N)
    by (vm_compute; reflexivity).
  assert (H4 : (N.of_nat (capacity abc_cut_at_130) + 8
                <= 120 + 8 * from_bytes_big [x00; x00; x00; x03])%N)
    by (vm_compute; discriminate).
  split; [exact H1|]. split; [exact H2|]. split; [exact H3|]. split; [exact H4|].
  exact (proj2 (extract_truncated_stream Lossless.block Lossless.dct_coeff
                  abc_cut_at_130 [x00; x00; x00; x03] H1 H2 H3) H4).
Defined.

(** X20: when the decoded bits start with a valid header that declares [L]
    bytes and the video has at least [header_len_bits + 8 L] blocks,
    [extract] sets the bit count to [header_len_bits + 8 L], keeps those
    bits at the front of the accumulator, and writes the [L] bytes spelled
    by the [8 L] bits after the header, whatever the later blocks hold. *)
Theorem extract_complete_stream (block : Type) (dct_coeff : block -> Q)
    (frames : list (frame block)) (length_bytes : list byte) :
  let D := decoded dct_coeff (blocks_of frames) in
  let st := fst (extract dct_coeff frames) in
  let L := N.to_nat (from_bytes_big length_bytes) in
  firstn header_len_bits D = bits_of_bytes (MARKER ++ length_bytes) ->
  length length_bytes = 4%nat ->
  (header_len_bits + 8 * L <= capacity frames)%nat ->
  extraction_failed st = false /\
  total_bits_to_extract st = Some (120 + 8 * from_bytes_big length_bytes)%N /\
  firstn (header_len_bits + 8 * L) (extracted_bits st)
  = firstn (header_len_bits + 8 * L) D /\
  snd (extract dct_coeff frames)
  = Some (Written (bytes_of_bits (firstn (8 * L) (skipn header_len_bits D)))).
Proof.
  cbv zeta. intros E H4 Hcap.
  destruct (extract_complete block dct_coeff frames length_bytes E H4 Hcap)
    as (G1 & G2 & G3 & _ & G5).
  now repeat split.
Qed.

Lemma extract_complete_stream_witness :
  firstn header_len_bits (decoded Lossless.dct_coeff (blocks_of abc_then_more))
  = bits_of_bytes (MARKER ++ [x00; x00; x00; x03]) /\
  length [x00; x00; x00; x03] = 4%nat /\
  (header_len_bits + 8 * N.to_nat (from_bytes_big [x00; x00; x00; x03])
   <= capacity abc_then_more)%nat /\
  snd (extract Lossless.dct_coeff abc_then_more)
  = Some (Written
            (bytes_of_bits
               (firstn (8 * N.to_nat (from_bytes_big [x00; x00; x00; x03]))
                  (skipn header_len_bits
                     (decoded Lossless.dct_coeff (blocks_of abc_then_more)))))).
Proof.
  assert (H1 : firstn header_len_bits
                 (decoded Lossless.dct_coeff (blocks_of abc_then_more))
               = bits_of_bytes (MARKER ++ [x00; x00; x00; x03]))
    by (vm_compute; reflexivity).
  assert (H2 : length [x00; x00; x00; x03] = 4%nat) by reflexivity.
  assert (H3 : (header_len_bits + 8 * N.to_nat (from_bytes_big [x00; x00; x00; x03])
                <= capacity abc_then_more)%nat) by (vm_compute; lia).
  split; [exact H1|]. split; [exact H2|]. split; [exact H3|].
  exact (proj2 (proj2 (proj2 (extract_complete_stream Lossless.block
                                Lossless.dct_coeff abc_then_more
                                [x00; x00; x00; x03] H1 H2 H3)))).
Defined.

(** X21: [extract] never accumulates more bits than the video has blocks;
    a bit count, once set, is at least [header_len_bits] and is passed by
    at most one bit per frame after the first; after a marker mismatch the
    accumulator holds the header bits and at most one bit per frame after
    the first. *)
Theorem extract_overread_bound (block : Type) (dct_coeff : block -> Q)
    (frames : list (frame block)) :
  let st := fst (extract dct_coeff frames) in
  (length (extracted_bits st) <= capacity frames)%nat /\
  (forall total, total_bits_to_extract st = Some total ->
     (N.of_nat header_len_bits <= total)%N /\
     (N.of_nat (length (extracted_bits st))
      <= total + N.of_nat (pred (length frames)))%N) /\
  (extraction_failed st = true ->
   total_bits_to_extract st = None /\
   (header_len_bits <= length (extracted_bits st)
    <= header_len_bits + pred (length frames))%nat).
Proof. exact (extract_overread block dct_coeff frames). Qed.

(** X22: frames appended to a video whose blocks hold a complete stream do
    not change what [extract] writes. *)
Theorem extract_ignores_later_frames (block : Type) (dct_coeff : block -> Q)
    (frames more : list (frame block)) (length_bytes : list byte) :
  let D := decoded dct_coeff (blocks_of frames) in
  let L := N.to_nat (from_bytes_big length_bytes) in
  firstn header_len_bits D = bits_of_bytes (MARKER ++ length_bytes) ->
  length length_bytes = 4%nat ->
  (header_len_bits + 8 * L <= capacity frames)%nat ->
  snd (extract dct_coeff (frames ++ more)) = snd (extract dct_coeff frames).
Proof. exact (extract_more_frames block dct_coeff frames more length_bytes). Qed.

Lemma extract_ignores_later_frames_witness :
  firstn header_len_bits (decoded Lossless.dct_coeff (blocks_of abc_exact))
  = bits_of_bytes (MARKER ++ [x00; x00; x00; x03]) /\
  length [x00; x00; x00; x03] = 4%nat /\
  (header_len_bits + 8 * N.to_nat (from_bytes_big [x00; x00; x00; x03])
   <= capacity abc_exact)%nat /\
  snd (extract Lossless.dct_coeff (abc_exact ++ no_marker))
  = snd (extract Lossless.dct_coeff abc_exact).
Proof.
  assert (H1 : firstn header_len_bits
                 (decoded Lossless.dct_coeff (blocks_of abc_exact))
               = bits_of_bytes (MARKER ++ [x00; x00; x00; x03]))
    by (vm_compute; reflexivity).
  assert (H2 : length [x00; x00; x00; x03] = 4%nat) by reflexivity.
  assert (H3 : (header_len_bits + 8 * N.to_nat (from_bytes_big [x00; x00; x00; x03])
                <= capacity abc_exact)%nat) by (vm_compute; lia).
  split; [exact H1|]. split; [exact H2|]. split; [exact H3|].
  exact (extract_ignores_later_frames Lossless.block Lossless.dct_coeff
           abc_exact no_marker [x00; x00; x00; x03] H1 H2 H3).
Defined.

(** ** The script *)

(** X25: when the stego video decodes to at least [header_len_bits] bits
    with a wrong marker, [extract] writes nothing and the verdict of
    [__main__] is about whatever the output path held before the run: a
    file left there with the digest of the secret gives the success
    message, any other file the corruption message, no file the message
    that none was created. *)
Theorem main_judges_the_file_left_behind
    (block : Type) (dct_coeff : block -> Q) (store_coeff : block -> Q -> block)
    (codec : list (frame block) -> list (frame block))
    (get_file_hash : list byte -> string)
    (payload : list byte) (frames : list (frame block)) (bits : list bool)
    (before : option (list byte)) :
  let stego :=
    codec (stego_frames (embed_bitstream dct_coeff store_coeff frames bits)) in
  _payload_to_bitstream payload = Some bits ->
  (header_len_bits <= capacity stego)%nat ->
  firstn (length MARKER * 8) (decoded dct_coeff (blocks_of stego))
  <> bits_of_bytes MARKER ->
  main dct_coeff store_coeff codec get_file_hash (Some payload) (Some frames) before
  = match before with
    | Some stale =>
        if String.eqb (get_file_hash payload) (get_file_hash stale)
        then Success else Corrupted
    | None => NotCreated
    end.
Proof.
  exact (main_when_marker_rejected block dct_coeff store_coeff codec get_file_hash
           payload frames bits before).
Qed.

Lemma main_judges_the_file_left_behind_witness :
  _payload_to_bitstream abc = Some (stream_of abc) /\
  (header_len_bits
   <= capacity (flattening_codec
                  (stego_frames (embed_bitstream Lossless.dct_coeff
                                   Lossless.store_coeff lossless_cover
                                   (stream_of abc)))))%nat /\
  firstn (length MARKER * 8)
    (decoded Lossless.dct_coeff
       (blocks_of (flattening_codec
                     (stego_frames (embed_bitstream Lossless.dct_coeff
                                      Lossless.store_coeff lossless_cover
                                      (stream_of abc))))))
  <> bits_of_bytes MARKER /\
  main Lossless.dct_coeff Lossless.store_coeff flattening_codec content_hash
    (Some abc) (Some lossless_cover) (Some abc)
  = Success.
Proof.
  assert (H1 : _payload_to_bitstream abc = Some (stream_of abc)) by reflexivity.
  assert (H2 : (header_len_bits
                <= capacity (flattening_codec
                               (stego_frames
                                  (embed_bitstream Lossless.dct_coeff
                                     Lossless.store_coeff lossless_cover
                                     (stream_of abc)))))%nat)
    by (vm_compute; lia).
  assert (H3 : firstn (length MARKER * 8)
                 (decoded Lossless.dct_coeff
                    (blocks_of (flattening_codec
                                  (stego_frames
                                     (embed_bitstream Lossless.dct_coeff
                                        Lossless.store_coeff lossless_cover
                                        (stream_of abc))))))
               <> bits_of_bytes MARKER)
    by (vm_compute; discriminate).
  split; [exact H1|]. split; [exact H2|]. split; [exact H3|].
  exact (main_judges_the_file_left_behind Lossless.block Lossless.dct_coeff
           Lossless.store_coeff flattening_codec content_hash abc lossless_cover
           (stream_of abc) (Some abc) H1 H2 H3).
Defined.
